(** * The [Code] node: whitespace normalisation, highlighting, merging,
      re-grouping and theme blending

    A shallow embedding of [src/Code.tsx].  Every definition follows one
    method of the class [Code] and keeps its name.

    Conventions of the embedding.
    - A JavaScript string is a [string]: a sequence of code units, here the
      ones below 256.  Concatenation is [+:+].
    - [undefined] and [null] are [None]; a property read or a method call on
      one of them raises a [TypeError], which the embedding records as
      [Throw] together with the value that was missing.  The error of the
      colour class for a colour it cannot read is recorded the same way.
    - A JavaScript number is only ever [0], [1], or [1 - p]; it is a [Q].
    - What the class receives from other packages (the Lezer parser and
      tree walker, [Intl.Segmenter], the colour class) is a [Variable] of
      a [Section]. *)

From stdpp Require Import list strings relations.
From Stdlib Require Import QArith Ascii.

Local Open Scope string_scope.
Local Open Scope nat_scope.
Local Open Scope list_scope.

(** ** Exceptions *)

(** The value whose absence made a property access raise; the last one is
    the error of the colour class. *)
Inductive TypeError : Set :=
  | UndefinedLine     (* [secondLine] in [correctWhitespace] *)
  | UndefinedRule     (* [rule] in the callback of [highlight] *)
  | UndefinedEntry    (* [tokens[i]] in the callback of [highlight] *)
  | UndefinedLast     (* [a.slice(-1)[0]] in [tokens] *)
  | NullStream        (* [this.oldHighlighted()] in [highlighted] *)
  | UndefinedOldToken (* [oldToken] in [highlighted] *)
  | UnknownFormat     (* [new Color(c)] for a [c] that is no colour *).

Inductive result (A : Type) : Type :=
  | Ok (a : A)
  | Throw (e : TypeError).
Arguments Ok {A} a.
Arguments Throw {A} e.

Global Instance result_ret : MRet result := fun _ a => Ok a.

Global Instance result_bind : MBind result := fun _ _ k r =>
  match r with
  | Ok a => k a
  | Throw e => Throw e
  end.

(** The call returned: it raised nothing. *)
Definition returns {A} (r : result A) : Prop := exists a, r = Ok a.

(** ** JavaScript string primitives *)

Module JS.

Definition nl : string := String "010"%char "".

(** The class [\s] of a regular expression, also what [trim] strips. *)
Definition is_ws (c : ascii) : bool :=
  let n := nat_of_ascii c in
  ((9 <=? n) && (n <=? 13)) || (n =? 32) || (n =? 160).

(** [/^\s*$/] *)
Fixpoint all_ws (s : string) : bool :=
  match s with
  | "" => true
  | String c s' => is_ws c && all_ws s'
  end.

(** [/\s/] *)
Fixpoint has_ws (s : string) : bool :=
  match s with
  | "" => false
  | String c s' => is_ws c || has_ws s'
  end.

(** [s.match(/^\s+/)?.[0] ?? ''] *)
Fixpoint leading_ws (s : string) : string :=
  match s with
  | "" => ""
  | String c s' => if is_ws c then String c (leading_ws s') else ""
  end.

Fixpoint drop_ws (s : string) : string :=
  match s with
  | "" => ""
  | String c s' => if is_ws c then drop_ws s' else s
  end.

(** [s.trim()] *)
Definition trim (s : string) : string :=
  String.rev (drop_ws (String.rev (drop_ws s))).

Fixpoint drop (n : nat) (s : string) : string :=
  match n, s with
  | 0, _ => s
  | S _, "" => ""
  | S n', String _ s' => drop n' s'
  end.

(** [line.replace(new RegExp('^' + p), '')] for a [p] made of whitespace,
    which a regular expression reads literally. *)
Definition strip_prefix (p line : string) : string :=
  if String.prefix p line then drop (String.length p) line else line.

(** [s.includes(sub)] *)
Fixpoint includes (s sub : string) : bool :=
  String.prefix sub s ||
  match s with
  | "" => false
  | String _ s' => includes s' sub
  end.

(** [s.split(sep)] for a non-empty [sep]: the array is never empty, so it
    is its element [0] and the array of the elements from [1] on.
    [cur] is the piece being read, [skip] the code units of a separator
    still to pass. *)
Fixpoint split_from (sep s cur : string) (skip : nat) : string * list string :=
  match s with
  | "" => (cur, [])
  | String c s' =>
      match skip with
      | S k => split_from sep s' cur k
      | 0 =>
          if String.prefix sep s
          then (cur, let '(h, t) := split_from sep s' "" (String.length sep - 1)
                     in h :: t)
          else split_from sep s' (cur +:+ String c "") 0
      end
  end.

Definition split (sep s : string) : string * list string :=
  split_from sep s "" 0.

Definition array (p : string * list string) : list string := p.1 :: p.2.

(** [a.join(sep)] *)
Definition join (sep : string) (a : list string) : string :=
  String.concat sep a.

End JS.

(** ** [correctWhitespace] *)

Definition correctWhitespace (str : string) : result string :=
  let lines := JS.split JS.nl str in
  let firstLine := lines.1 in
  if negb (JS.all_ws firstLine) then Ok str
  else
    match lines.2 !! 0 with
    | None => Throw UndefinedLine
    | Some secondLine =>
        let indent := JS.leading_ws secondLine in
        Ok (JS.join JS.nl (map (JS.strip_prefix indent) lines.2))
    end.

(** The text up to the first line feed. *)
Fixpoint first_line (s : string) : string :=
  match s with
  | "" => ""
  | String c s' => if Ascii.eqb c "010"%char then "" else String c (first_line s')
  end.

Definition first_line_blank (s : string) : bool := JS.all_ws (first_line s).

(** ** [highlight] *)

(** One element of a token stream: [{token: string; color: string}], where
    [color] is [undefined] when the rule gave none. *)
Record Token : Set := { token : string; color : option string }.

(** [HighlightStyle]: all that [highlight] reads of it is the text of
    [style.module.getRules()]. *)
Record HighlightStyle : Set := { getRules : string }.

(** An invocation [(from, to, classList)] of the callback by [highlightTree]. *)
Definition Range : Set := nat * nat * string.

(** What the callback mutates: the array [tokens] of [highlight], to which
    the calls of [useLogger().warn] are added, oldest first. *)
Record Walk : Set := { entries : list Token; warnings : list string }.

Definition start : Walk := {| entries := []; warnings := [] |}.

(** [rules.split('\n').find(rule => rule.includes(classList))] *)
Definition findRule (style : HighlightStyle) (classList : string) : option string :=
  find (fun rule => JS.includes rule classList)
       (JS.array (JS.split JS.nl (getRules style))).

(** [rule.split('color:')[1]?.split(';')[0].trim()] *)
Definition ruleColor (rule : string) : option string :=
  match (JS.split "color:" rule).2 !! 0 with
  | None => None
  | Some value => Some (JS.trim (JS.split ";" value).1)
  end.

(** [!color] *)
Definition unresolved (c : option string) : bool :=
  match c with
  | None => true
  | Some s => bool_decide (s = "")
  end.

Definition warn (message : string) (w : Walk) : Walk :=
  {| entries := entries w; warnings := warnings w ++ [message] |}.

(** [`Unknown theme class '${classList}'`] *)
Definition message (classList : string) : string :=
  "Unknown theme class '" +:+ classList +:+ "'".

(** [t.color = c] *)
Definition set_color (c : option string) (t : Token) : Token :=
  {| token := token t; color := c |}.

Section Highlight.

(** [this.code()] and [this.fallbackColor().hex()] *)
Variable code : string.
Variable fallbackColor : string.

(** The token pushed when the array has [i] elements:
    [{token: code.substring(i, i + 1), color: fallbackColor}] *)
Definition gap (i : nat) : Token :=
  {| token := String.substring i 1 code; color := Some fallbackColor |}.

(** [while (tokens.length < to) tokens.push(token)]: the loop runs
    [to - tokens.length] times. *)
Fixpoint fill_loop (n : nat) (tokens : list Token) : list Token :=
  match n with
  | 0 => tokens
  | S n' => fill_loop n' (tokens ++ [gap (length tokens)])
  end.

Definition fill (to : nat) (tokens : list Token) : list Token :=
  fill_loop (to - length tokens) tokens.

(** [for (let i = from; i < to; i++) tokens[i].color = color], with [n]
    the number of rounds left. *)
Fixpoint paint_loop (n i : nat) (c : option string) (tokens : list Token)
  : result (list Token) :=
  match n with
  | 0 => Ok tokens
  | S n' =>
      match tokens !! i with
      | None => Throw UndefinedEntry
      | Some t =>
          paint_loop n' (S i) c (<[i := set_color c t]> tokens)
      end
  end.

Definition paint (from to : nat) (c : option string) (tokens : list Token)
  : result (list Token) :=
  paint_loop (to - from) from c tokens.

Definition callback (style : HighlightStyle) (w : Walk) (r : Range) : result Walk :=
  let '(from, to, classList) := r in
  match findRule style classList with
  | None => Throw UndefinedRule
  | Some rule =>
      let c := ruleColor rule in
      let w1 := if unresolved c then warn (message classList) w else w in
      tokens ← paint from to c (fill to (entries w1));
      Ok {| entries := tokens; warnings := warnings w1 |}
  end.

(** [highlightTree(tree, style, callback)]: the callback runs on the
    ranges in the order the tree walker reports them. *)
Fixpoint walk (style : HighlightStyle) (ranges : list Range) (w : Walk) : result Walk :=
  match ranges with
  | [] => Ok w
  | r :: ranges' => w' ← callback style w r; walk style ranges' w'
  end.

(** The function of [tokens.reduce].  [acc.length === 0] is [last acc = None];
    [e.token += token.token] mutates the last element of [acc], an object
    that nothing reads again through the array [tokens]. *)
Definition join_step (acc : list Token) (t : Token) : list Token :=
  match last acc with
  | None => [t]
  | Some e =>
      if decide (color e = color t)
      then removelast acc ++ [{| token := token e +:+ token t; color := color e |}]
      else acc ++ [t]
  end.

Definition joined (tokens : list Token) : list Token :=
  fold_left join_step tokens [].

Definition highlight (style : HighlightStyle) (ranges : list Range) : result (list Token) :=
  w ← walk style ranges start; Ok (joined (entries w)).

End Highlight.

(** The largest [to] of the ranges, the number of entries after the walk. *)
Definition reach (ranges : list Range) : nat :=
  foldr (fun r m => r.1.2 `max` m) 0 ranges.


(** Entry [j] holds code unit [j] of the text. *)
Definition aligned (code : string) (ts : list Token) : Prop :=
  forall j t, ts !! j = Some t -> token t = String.substring j 1 code.

(** The text of a stream, and the colour of each of its code units. *)
Definition text (ts : list Token) : string :=
  foldr (fun t s => token t +:+ s) "" ts.

Definition colors (ts : list Token) : list (option string) :=
  flat_map (fun t => replicate (String.length (token t)) (color t)) ts.

(** ** [tokens] *)

(** [array.reduce(f, init)] for an [f] that may raise. *)
Fixpoint reduce {A B} (f : B -> A -> result B) (l : list A) (acc : B) : result B :=
  match l with
  | [] => Ok acc
  | x :: l' => acc' ← f acc x; reduce f l' acc'
  end.

(** The function of the [reduce] in [tokens]:
    [!i.match(/\s/) ? [...a.slice(0, -1), a.slice(-1)[0].concat(i)] : [...a, i]] *)
Definition regroup_step (a : list string) (i : string) : result (list string) :=
  if negb (JS.has_ws i)
  then match last a with
       | None => Throw UndefinedLast
       | Some l => Ok (removelast a ++ [l +:+ i])
       end
  else Ok (a ++ [i]).

Definition regroup (segments : list string) : result (list string) :=
  reduce regroup_step segments [""].

Section Tokens.

(** [Array.from(segmenter.segment(token), c => c.segment)] for the
    [Intl.Segmenter] of [tokens]. *)
Variable segment : string -> list string.

Definition split_token (t : Token) : result (list Token) :=
  chars ← regroup (segment (token t));
  Ok (map (fun char => {| token := char; color := color t |}) chars).

Definition tokens (highlighted : list Token) : result (list Token) :=
  parts ← mapM split_token highlighted; Ok (concat parts).

End Tokens.

(** ** [highlighted] *)

Section Blend.

(** The colour class.  [newColor c] is [new Color(c)]: [None] when the
    class raises because [c] is undefined or a string it cannot read.
    [mix a b amount] is [a.mix(c2, amount, 'hsl')] once the class has read
    [c2] as [b], which it does with [new Color(c2)].  [hex] is [c.hex()]. *)
Variable Color : Type.
Variable newColor : option string -> option Color.
Variable mix : Color -> Color -> Q -> Color.
Variable hex : Color -> string.

(** [new Color(c1).mix(c2, amount, 'hsl').hex()] *)
Definition blendHsl (c1 c2 : option string) (amount : Q) : result string :=
  match newColor c1 with
  | None => Throw UnknownFormat
  | Some a =>
      match newColor c2 with
      | None => Throw UnknownFormat
      | Some b => Ok (hex (mix a b amount))
      end
  end.

(** [newHighlighted.map((token, i) => [token, this.oldHighlighted()[i]])].
    [oldHighlighted] is what the memoised [this.oldHighlighted()] gives
    each time it is called. *)
Fixpoint zipped (oldHighlighted : result (option (list Token))) (i : nat)
    (newHighlighted : list Token) : result (list (Token * option Token)) :=
  match newHighlighted with
  | [] => Ok []
  | t :: rest =>
      old ← oldHighlighted;
      match old with
      | None => Throw NullStream
      | Some old => z ← zipped oldHighlighted (S i) rest; Ok ((t, old !! i) :: z)
      end
  end.

Definition blend (p : Q) (pair : Token * option Token) : result Token :=
  let '(newToken, oldToken) := pair in
  match oldToken with
  | None => Throw UndefinedOldToken
  | Some oldToken =>
      c ← blendHsl (color newToken) (color oldToken) (1 - p);
      Ok {| token := token newToken; color := Some c |}
  end.

Definition highlighted (styleProgress : option Q)
    (newHighlighted : result (list Token))
    (oldHighlighted : result (option (list Token))) : result (list Token) :=
  match styleProgress with
  | None => newHighlighted
  | Some p =>
      new ← newHighlighted;
      z ← zipped oldHighlighted 0 new;
      mapM (blend p) z
  end.

End Blend.

(** ** The node *)

(** The signals of a [Code] node that the pipeline reads.  [oldStyle] and
    [styleProgress] are private and start as [null]. *)
Record Code : Type := {
  code : string;
  fallbackColor : string;
  style : HighlightStyle;
  oldStyle : option HighlightStyle;
  styleProgress : option Q;
}.





(** The computed properties, as methods of a node. *)
Module Node.
Section Node.

(** [this.parser().parse] and [highlightTree], which reports the ranges
    it would pass to its callback. *)
Variable Tree : Type.
Variable parse : string -> Tree.
Variable highlightTree : Tree -> HighlightStyle -> list Range.

Variable Color : Type.
Variable newColor : option string -> option Color.
Variable mix : Color -> Color -> Q -> Color.
Variable hex : Color -> string.

Definition parsed (this : Code) : Tree := parse (code this).

Definition highlight (this : Code) (style : HighlightStyle) : result (list Token) :=
  highlight (code this) (fallbackColor this) style (highlightTree (parsed this) style).

Definition oldHighlighted (this : Code) : result (option (list Token)) :=
  match oldStyle this with
  | None => Ok None
  | Some oldStyle => ts ← highlight this oldStyle; Ok (Some ts)
  end.

Definition newHighlighted (this : Code) : result (list Token) :=
  highlight this (style this).

Definition highlighted (this : Code) : result (list Token) :=
  highlighted Color newColor mix hex
    (styleProgress this) (newHighlighted this) (oldHighlighted this).

End Node.
End Node.

(** ** [tweenStyle] *)












(** ** Invariants and sample data *)

(** Every element but the first holds a whitespace code unit. *)
Definition glued (a : list string) : Prop :=
  Forall (fun s => JS.has_ws s = true) (drop 1 a).



(** Themes with a rule that has no colour, with an empty colour, with one
    rule and with two. *)
Definition bold_only : HighlightStyle := {| getRules := ".k {font-weight: bold}" |}.

Definition empty_color : HighlightStyle := {| getRules := ".k {color: ;}" |}.

Definition one_rule : HighlightStyle := {| getRules := ".k {color: #ff7b72;}" |}.

Definition two_rules : HighlightStyle :=
  {| getRules := ".a {color: red;}" +:+ JS.nl +:+ ".b {color: blue;}" |}.

(** A colour class for the examples.  A colour is a string that is not
    empty and is read as it is; [undefined] and the empty string raise;
    there is nothing between the two ends of a mix. *)
Definition sample_newColor (c : option string) : option string :=
  match c with
  | None => None
  | Some s => if bool_decide (s = "") then None else Some s
  end.

Definition sample_mix (a b : string) (amount : Q) : string :=
  if Qeq_bool amount 0 then a else b.

Definition sample_hex (c : string) : string := c.




(** ** [desiredSize] and [draw] *)

Section Layout.

(** Numbers of the canvas: widths and coordinates.  Nothing is assumed of
    the arithmetic, so what is proved holds of floating point.  [zero] is
    the literal [0], [add] is [+], [max] is [Math.max] and [neg_half n] is
    [n / -2]. *)
Variable Num : Type.
Variable zero : Num.
Variable add : Num -> Num -> Num.
Variable max : Num -> Num -> Num.
Variable neg_half : Num -> Num.

(** [ctx.measureText(token).width] and [parseFloat(this.styles.lineHeight)] *)
Variable measureText : string -> Num.
Variable lh : Num.

(** The locals [height], [width] and [lineWidth] of [desiredSize]. *)
Record Measure : Type := { height : Num; width : Num; lineWidth : Num }.

(** The body of the loop of [desiredSize]. *)
Definition measure_step (m : Measure) (t : Token) : Measure :=
  let lineWidth := add (lineWidth m) (measureText (token t)) in
  if decide (token t = JS.nl)
  then {| height := add (height m) lh;
          width := max lineWidth (width m);
          lineWidth := zero |}
  else {| height := height m; width := width m; lineWidth := lineWidth |}.

Record Size : Type := { x : Num; y : Num }.

Definition desiredSize (tokens : list Token) : Size :=
  let m := fold_left measure_step tokens
             {| height := lh; width := zero; lineWidth := zero |} in
  {| y := height m; x := width m |}.

(** The calls [draw] makes on the context once the font is set. *)
Inductive CanvasCall : Type :=
  | CtxTranslate (dx dy : Num)
  | CtxSave
  | CtxRestore
  | CtxFillStyle (style : string)
  | CtxFillText (text : string) (px py : Num).

(** [drawToken]: the calls it makes and the position it leaves. *)
Definition drawToken (token : string) (position : Size) : list CanvasCall * Size :=
  if decide (token = JS.nl)
  then ([], {| x := zero; y := add (y position) lh |})
  else ([CtxFillText token (x position) (y position)],
        {| x := add (x position) (measureText token); y := y position |}).

(** The body of the loop of [draw]; [color ?? '#c9d1d9'] is [default]. *)
Definition draw_step (acc : list CanvasCall * Size) (t : Token)
  : list CanvasCall * Size :=
  let '(calls, position) := acc in
  let '(drawn, position') := drawToken (token t) position in
  (calls ++ [CtxSave; CtxFillStyle (default "#c9d1d9" (color t))] ++ drawn ++ [CtxRestore],
   position').

(** The loop of [draw] after [context.translate]; [size] is
    [this.computedSize()]. *)
Definition draw_loop (size : Size) (tokens : list Token) : list CanvasCall * Size :=
  fold_left draw_step tokens
    ([CtxTranslate (neg_half (x size)) (neg_half (y size))],
     {| x := zero; y := zero |}).

Definition draw (size : Size) (tokens : list Token) : list CanvasCall :=
  (draw_loop size tokens).1.

(** The texts that were filled, the fill styles that were set, and the
    numbers of [save] and of [restore], in a list of calls. *)
Definition fill_texts (calls : list CanvasCall) : list string :=
  flat_map (fun c => match c with CtxFillText t _ _ => [t] | _ => [] end) calls.

Definition fill_styles (calls : list CanvasCall) : list string :=
  flat_map (fun c => match c with CtxFillStyle s => [s] | _ => [] end) calls.

Definition saves (calls : list CanvasCall) : nat :=
  length (flat_map (fun c => match c with CtxSave => [()] | _ => [] end) calls).

Definition restores (calls : list CanvasCall) : nat :=
  length (flat_map (fun c => match c with CtxRestore => [()] | _ => [] end) calls).

End Layout.

Arguments CtxTranslate {Num} dx dy.
Arguments CtxSave {Num}.
Arguments CtxRestore {Num}.
Arguments CtxFillStyle {Num} style.
Arguments CtxFillText {Num} text px py.

(** ** [tweenStyle] as a function *)


(** ** Notions used by the further properties *)

(** The text has no line feed. *)
Definition one_line (s : string) : Prop := first_line s = s.

(** What [line.replace(re, '')] makes of a line, said without the code: the
    line without the indent when it starts with it, the line when not. *)
Definition unindented (indent line line' : string) : Prop :=
  line = indent +:+ line' \/ (String.prefix indent line = false /\ line' = line).

(** The range covers index [j]. *)
Definition covers (j : nat) (r : Range) : bool :=
  bool_decide (r.1.1 <= j < r.1.2).

(** The colour the rule of a class list gives. *)
Definition classColor (style : HighlightStyle) (classList : string) : option string :=
  rule ← findRule style classList; ruleColor rule.

(** The last of the ranges to cover [j] decides its colour; with none, the
    fallback colour stays. *)
Definition last_wins (style : HighlightStyle) (fallbackColor : string)
    (ranges : list Range) (j : nat) : option string :=
  match find (covers j) (rev ranges) with
  | None => Some fallbackColor
  | Some r => classColor style r.2
  end.

(** The colour class reads the colours of the stream as [cs], one by one:
    none of them is undefined or a string it cannot read. *)
Definition reads {Color : Type} (newColor : option string -> option Color)
    (ts : list Token) (cs : list Color) : Prop :=
  Forall2 (fun t c => newColor (color t) = Some c) ts cs.

(** No two neighbours have the same colour. *)
Definition alternating (ts : list Token) : Prop :=
  forall i a b, ts !! i = Some a -> ts !! S i = Some b -> color a <> color b.

(** A segmenter that loses no text. *)
Definition lossless (segment : string -> list string) : Prop :=
  forall s, String.concat "" (segment s) = s.

(** The number of tokens that are a line feed. *)
Definition line_feeds (ts : list Token) : nat :=
  length (filter (fun t => token t = JS.nl) ts).

(** A segmenter that keeps the text in one piece. *)
Definition whole (s : string) : list string := [s].

(** A font in which every code unit is one unit wide. *)
Definition fixed_width (s : string) : nat := String.length s.

(** The line feed as a token. *)
Definition line_feed (c : option string) : Token := {| token := JS.nl; color := c |}.

(** * Properties *)

(** ** Exceptions *)

Lemma bind_Ok {A B} (a : A) (k : A -> result B) : (x ← Ok a; k x) = k a.
Proof. reflexivity. Qed.

Lemma bind_Throw {A B} (e : TypeError) (k : A -> result B) : (x ← Throw e; k x) = Throw e.
Proof. reflexivity. Qed.

Lemma bind_returns {A B} (r : result A) (k : A -> result B) (b : B) :
  (x ← r; k x) = Ok b -> exists a, r = Ok a /\ k a = Ok b.
Proof. destruct r as [a|e]; [eauto | done]. Qed.

(** ** Strings *)

Lemma append_nil_l (s : string) : "" +:+ s = s.
Proof. reflexivity. Qed.

Lemma append_cons (c : ascii) (s t : string) : String c s +:+ t = String c (s +:+ t).
Proof. reflexivity. Qed.

Lemma append_empty_r (s : string) : s +:+ "" = s.
Proof. induction s as [|c s IH]; [done | by rewrite append_cons, IH]. Qed.

Lemma append_assoc (s1 s2 s3 : string) : (s1 +:+ s2) +:+ s3 = s1 +:+ (s2 +:+ s3).
Proof. induction s1 as [|c s1 IH]; [done | by rewrite !append_cons, IH]. Qed.

Lemma length_append (s1 s2 : string) :
  String.length (s1 +:+ s2) = String.length s1 + String.length s2.
Proof. induction s1 as [|c s1 IH]; [done | rewrite append_cons; simpl; by rewrite IH]. Qed.

Example split_color :
  JS.array (JS.split "color:" ".k {color: #fff; background-color:red}")
  = [".k {"; " #fff; background-"; "red}"].
Proof. reflexivity. Qed.

Example split_lines :
  JS.array (JS.split JS.nl ("a" +:+ JS.nl +:+ JS.nl +:+ "b" +:+ JS.nl)) = ["a"; ""; "b"; ""].
Proof. reflexivity. Qed.

Example split_no_overlap : JS.array (JS.split "aa" "aaaXaa") = [""; "aX"; ""].
Proof. reflexivity. Qed.

Example trim_both : JS.trim "  a b  " = "a b".
Proof. reflexivity. Qed.

Example includes_inside :
  JS.includes ".k1 {color: red;}" "k1" = true /\ JS.includes ".k1 {color: red;}" "k2" = false.
Proof. split; reflexivity. Qed.

Example ruleColor_first_value :
  ruleColor ".k {color: #ff7b72; font-weight: bold;}" = Some "#ff7b72".
Proof. reflexivity. Qed.

Lemma prefix_nl (c : ascii) (s : string) :
  String.prefix JS.nl (String c s) = Ascii.eqb c "010"%char.
Proof.
  change (String.prefix JS.nl (String c s))
    with (if ascii_dec "010"%char c then String.prefix "" s else false).
  destruct (ascii_dec "010"%char c) as [<- | Hne].
  - rewrite Ascii.eqb_refl. by destruct s.
  - symmetry. apply Ascii.eqb_neq. congruence.
Qed.

(** Element [0] of [str.split('\n')] is the first line. *)
Lemma split_from_first_line (s cur : string) :
  (JS.split_from JS.nl s cur 0).1 = cur +:+ first_line s.
Proof.
  revert cur. induction s as [|c s IH]; intros cur.
  - simpl. by rewrite append_empty_r.
  - cbn [JS.split_from first_line]. rewrite prefix_nl.
    destruct (Ascii.eqb c "010"%char).
    + simpl. by rewrite append_empty_r.
    + rewrite IH, append_assoc. done.
Qed.

Lemma split_first_line (s : string) : (JS.split JS.nl s).1 = first_line s.
Proof. unfold JS.split. by rewrite split_from_first_line. Qed.

(** ** [correctWhitespace] *)

Example correctWhitespace_indent :
  correctWhitespace (JS.nl +:+ "  foo" +:+ JS.nl +:+ "  bar" +:+ JS.nl)
  = Ok ("foo" +:+ JS.nl +:+ "bar" +:+ JS.nl).
Proof. reflexivity. Qed.

Example correctWhitespace_shorter_indent :
  correctWhitespace (" " +:+ JS.nl +:+ "    a" +:+ JS.nl +:+ "  b" +:+ JS.nl +:+ "      c")
  = Ok ("a" +:+ JS.nl +:+ "  b" +:+ JS.nl +:+ "  c").
Proof. reflexivity. Qed.

(** C9.  A text whose first line is not entirely whitespace is returned as
    it is; so when such a text is itself an output of the normalisation,
    normalising it again changes nothing. *)
Theorem correctWhitespace_nonblank_unchanged (str : string) :
  first_line_blank str = false ->
  correctWhitespace str = Ok str /\
  (forall before, correctWhitespace before = Ok str ->
     (out ← correctWhitespace before; correctWhitespace out) = Ok str).
Proof.
  intros Hblank.
  assert (Hsame : correctWhitespace str = Ok str).
  { unfold correctWhitespace. rewrite split_first_line.
    unfold first_line_blank in Hblank. by rewrite Hblank. }
  split; [done |].
  intros before Hbefore. rewrite Hbefore. simpl. exact Hsame.
Qed.

Lemma correctWhitespace_nonblank_unchanged_witness :
  first_line_blank ("foo" +:+ JS.nl +:+ "  bar") = false /\
  correctWhitespace ("foo" +:+ JS.nl +:+ "  bar") = Ok ("foo" +:+ JS.nl +:+ "  bar").
Proof.
  split; [reflexivity |].
  apply (correctWhitespace_nonblank_unchanged ("foo" +:+ JS.nl +:+ "  bar")).
  reflexivity.
Defined.

(** ** Joining tokens of the same colour *)

Lemma text_app (l1 l2 : list Token) : text (l1 ++ l2) = text l1 +:+ text l2.
Proof.
  induction l1 as [|t l1 IH]; [done |].
  cbn [app text foldr]. fold (text (l1 ++ l2)) (text l1).
  by rewrite IH, append_assoc.
Qed.

Lemma text_singleton (t : Token) : text [t] = token t.
Proof. unfold text. simpl. apply append_empty_r. Qed.

Lemma colors_app (l1 l2 : list Token) : colors (l1 ++ l2) = colors l1 ++ colors l2.
Proof. unfold colors. apply flat_map_app. Qed.

Lemma colors_singleton (t : Token) :
  colors [t] = replicate (String.length (token t)) (color t).
Proof. unfold colors. simpl. apply app_nil_r. Qed.

(** The last element of a non-empty array and the array without it. *)
Lemma last_split {A} (l : list A) (e : A) : last l = Some e -> l = removelast l ++ [e].
Proof.
  intros [l' ->]%last_Some. by rewrite removelast_last.
Qed.

Lemma join_step_text (acc : list Token) (t : Token) :
  text (join_step acc t) = text acc +:+ token t.
Proof.
  unfold join_step. destruct (last acc) as [e|] eqn:Hlast.
  - apply last_split in Hlast. destruct (decide (color e = color t)).
    + rewrite Hlast at 2. rewrite !text_app, !text_singleton. simpl.
      by rewrite append_assoc.
    + by rewrite text_app, text_singleton.
  - apply last_None in Hlast as ->. by rewrite text_singleton.
Qed.

Lemma join_step_colors (acc : list Token) (t : Token) :
  colors (join_step acc t) = colors acc ++ colors [t].
Proof.
  unfold join_step. destruct (last acc) as [e|] eqn:Hlast.
  - apply last_split in Hlast. destruct (decide (color e = color t)) as [Heq|].
    + rewrite Hlast at 2. rewrite !colors_app, !colors_singleton. simpl.
      rewrite length_append, replicate_add, Heq. by rewrite <- app_assoc.
    + by rewrite colors_app.
  - by apply last_None in Hlast as ->.
Qed.

Lemma fold_join_text (ts acc : list Token) :
  text (fold_left join_step ts acc) = text acc +:+ text ts.
Proof.
  revert acc. induction ts as [|t ts IH]; intros acc; simpl.
  - by rewrite append_empty_r.
  - rewrite IH, join_step_text, append_assoc. done.
Qed.

Lemma fold_join_colors (ts acc : list Token) :
  colors (fold_left join_step ts acc) = colors acc ++ colors ts.
Proof.
  revert acc. induction ts as [|t ts IH]; intros acc; simpl.
  - by rewrite app_nil_r.
  - rewrite IH, join_step_colors, <- app_assoc.
    by rewrite <- colors_app.
Qed.

(** C8.  Joining consecutive tokens of equal colour keeps the text: the
    spans after the fold concatenate to what the per-character tokens
    concatenate to. *)
Theorem joined_text (ts : list Token) : text (joined ts) = text ts.
Proof. unfold joined. by rewrite fold_join_text. Qed.

(** It also keeps the colour of every code unit. *)
Lemma joined_colors (ts : list Token) : colors (joined ts) = colors ts.
Proof. unfold joined. by rewrite fold_join_colors. Qed.

Example joined_example :
  joined [ {| token := "a"; color := Some "red" |};
           {| token := "b"; color := Some "red" |};
           {| token := "c"; color := None |};
           {| token := "d"; color := None |};
           {| token := "e"; color := Some "red" |} ]
  = [ {| token := "ab"; color := Some "red" |};
      {| token := "cd"; color := None |};
      {| token := "e"; color := Some "red" |} ].
Proof. reflexivity. Qed.

(** ** The callback of [highlight] *)

Section HighlightFacts.

Variable code : string.
Variable fallbackColor : string.

Lemma fill_loop_length (n : nat) (ts : list Token) :
  length (fill_loop code fallbackColor n ts) = length ts + n.
Proof.
  revert ts. induction n as [|n IH]; intros ts; simpl; [lia |].
  rewrite IH, length_app. simpl. lia.
Qed.

Lemma fill_loop_lookup (n : nat) (ts : list Token) (j : nat) :
  fill_loop code fallbackColor n ts !! j =
    if decide (j < length ts) then ts !! j
    else if decide (j < length ts + n) then Some (gap code fallbackColor j) else None.
Proof.
  revert ts. induction n as [|n IH]; intros ts; simpl.
  - repeat case_decide; try lia; [done |]. apply lookup_ge_None. lia.
  - rewrite IH, length_app. simpl.
    repeat case_decide; try lia.
    + by rewrite lookup_app_l.
    + assert (j = length ts) as -> by lia.
      rewrite lookup_app_r, Nat.sub_diag by lia. done.
    + done.
    + done.
Qed.

Lemma fill_length (to : nat) (ts : list Token) :
  length (fill code fallbackColor to ts) = length ts `max` to.
Proof. unfold fill. rewrite fill_loop_length. lia. Qed.

Lemma fill_lookup (to : nat) (ts : list Token) (j : nat) :
  fill code fallbackColor to ts !! j =
    if decide (j < length ts) then ts !! j
    else if decide (j < to) then Some (gap code fallbackColor j) else None.
Proof.
  unfold fill. rewrite fill_loop_lookup.
  repeat case_decide; try lia; done.
Qed.

(** After gap filling the loop that assigns the colour meets no missing
    entry. *)
Lemma paint_loop_spec (n i : nat) (c : option string) (ts : list Token) :
  i + n <= length ts ->
  exists ts',
    paint_loop n i c ts = Ok ts' /\
    length ts' = length ts /\
    forall j, ts' !! j =
      if decide (i <= j < i + n) then set_color c <$> ts !! j else ts !! j.
Proof.
  revert i ts. induction n as [|n IH]; intros i ts Hlen; simpl.
  - exists ts. repeat split. intros j. case_decide; [lia | done].
  - destruct (lookup_lt_is_Some_2 ts i) as [t Ht]; [lia |]. rewrite Ht.
    destruct (IH (S i) (<[i := set_color c t]> ts)) as (ts' & Hrun & Hl & Hlk).
    { rewrite length_insert. lia. }
    exists ts'. split; [exact Hrun |]. split.
    { by rewrite Hl, length_insert. }
    intros j. rewrite Hlk.
    destruct (decide (j = i)) as [-> | Hne].
    + rewrite list_lookup_insert_eq by lia. rewrite Ht. simpl.
      repeat case_decide; try lia; done.
    + rewrite list_lookup_insert_ne by done.
      repeat case_decide; try lia; done.
Qed.

Lemma paint_spec (from to : nat) (c : option string) (ts : list Token) :
  to <= length ts ->
  exists ts',
    paint from to c ts = Ok ts' /\
    length ts' = length ts /\
    forall j, ts' !! j =
      if decide (from <= j < to) then set_color c <$> ts !! j else ts !! j.
Proof.
  intros Hlen. unfold paint.
  destruct (decide (from <= to)) as [Hle | Hgt].
  - destruct (paint_loop_spec (to - from) from c ts) as (ts' & Hrun & Hl & Hlk); [lia |].
    exists ts'. repeat split; [done | done |].
    intros j. rewrite Hlk. repeat case_decide; try lia; done.
  - replace (to - from) with 0 by lia. exists ts. repeat split.
    intros j. case_decide; [lia | done].
Qed.

(** What one call of the callback does when a rule mentions the class. *)
Lemma callback_spec (style : HighlightStyle) (w : Walk)
    (from to : nat) (classList rule : string) :
  findRule style classList = Some rule ->
  exists w',
    callback code fallbackColor style w (from, to, classList) = Ok w' /\
    warnings w' =
      (if unresolved (ruleColor rule)
       then warnings w ++ [message classList] else warnings w) /\
    length (entries w') = length (entries w) `max` to /\
    forall j, entries w' !! j =
      if decide (from <= j < to)
      then set_color (ruleColor rule) <$> fill code fallbackColor to (entries w) !! j
      else fill code fallbackColor to (entries w) !! j.
Proof.
  intros Hrule. unfold callback. rewrite Hrule.
  set (w1 := if unresolved (ruleColor rule) then _ else w).
  assert (Hent : entries w1 = entries w) by (subst w1; by destruct (unresolved _)).
  destruct (paint_spec from to (ruleColor rule) (fill code fallbackColor to (entries w1)))
    as (ts' & Hrun & Hl & Hlk).
  { rewrite fill_length. lia. }
  rewrite Hrun. simpl. eexists. split; [reflexivity |]. simpl.
  rewrite Hent in *. split; [| split].
  - subst w1. by destruct (unresolved _).
  - by rewrite Hl, fill_length.
  - exact Hlk.
Qed.

(** When no rule mentions the class, [rule] is [undefined] and
    [rule.split] raises. *)
Lemma callback_no_rule (style : HighlightStyle) (w : Walk)
    (from to : nat) (classList : string) :
  findRule style classList = None ->
  callback code fallbackColor style w (from, to, classList) = Throw UndefinedRule.
Proof. intros Hrule. unfold callback. by rewrite Hrule. Qed.

End HighlightFacts.

(** ** Ranges that resolve to no colour *)

Example bold_only_rule :
  findRule bold_only "k" = Some ".k {font-weight: bold}" /\
  ruleColor ".k {font-weight: bold}" = None.
Proof. split; reflexivity. Qed.




Example empty_color_assigned :
  callback "ab" "#c9d1d9" empty_color start (1, 2, "k")
    = Ok {| entries := [ {| token := "a"; color := Some "#c9d1d9" |};
                         {| token := "b"; color := Some "" |} ];
            warnings := [ "Unknown theme class 'k'" ] |}.
Proof. reflexivity. Qed.

(** ** What the walk covers *)

Lemma substring_glue (n m : nat) (s : string) :
  String.substring 0 n s +:+ String.substring n m s = String.substring 0 (n + m) s.
Proof.
  revert s. induction n as [|n IH]; intros s.
  - simpl. by destruct s.
  - destruct s as [|c s]; [done |].
    simpl. rewrite append_cons. by rewrite IH.
Qed.

Lemma aligned_text (code : string) (ts : list Token) :
  aligned code ts -> text ts = String.substring 0 (length ts) code.
Proof.
  induction ts as [|t ts IH] using rev_ind; intros Hal.
  - simpl. by destruct code.
  - rewrite text_app, text_singleton, length_app. simpl.
    rewrite IH.
    + rewrite (Hal (length ts) t).
      * apply substring_glue.
      * rewrite lookup_app_r, Nat.sub_diag by lia. done.
    + intros j u Hj. apply Hal. rewrite lookup_app_l; [done |].
      by apply lookup_lt_Some in Hj.
Qed.

Section WalkFacts.

Variable code : string.
Variable fallbackColor : string.

Lemma fill_aligned (to : nat) (ts : list Token) :
  aligned code ts -> aligned code (fill code fallbackColor to ts).
Proof.
  intros Hal j t. rewrite fill_lookup.
  repeat case_decide; [apply Hal | | done].
  by intros [= <-].
Qed.

Lemma callback_aligned (style : HighlightStyle) (w w' : Walk) (r : Range) :
  callback code fallbackColor style w r = Ok w' ->
  aligned code (entries w) ->
  aligned code (entries w') /\ length (entries w') = length (entries w) `max` r.1.2.
Proof.
  destruct r as [[from to] classList]. intros Hrun Hal.
  destruct (findRule style classList) as [rule|] eqn:Hrule.
  - destruct (callback_spec code fallbackColor style w from to classList rule Hrule)
      as (w'' & Hrun' & _ & Hlen & Hlk).
    rewrite Hrun in Hrun'. injection Hrun' as <-.
    split; [| done].
    intros j t. rewrite Hlk.
    pose proof (fill_aligned to (entries w) Hal j) as Hf.
    case_decide; [| apply Hf].
    destruct (fill code fallbackColor to (entries w) !! j) as [u|]; [| done].
    simpl. intros [= <-]. simpl. by apply Hf.
  - by rewrite callback_no_rule in Hrun.
Qed.

(** The walk leaves one entry for each index below the largest [to] it
    was given, and none above: the text of the entries is the text up to
    there. *)
Lemma walk_covers (style : HighlightStyle) (ranges : list Range) (w w' : Walk) :
  walk code fallbackColor style ranges w = Ok w' ->
  aligned code (entries w) ->
  aligned code (entries w') /\
  length (entries w') = length (entries w) `max` reach ranges.
Proof.
  revert w. induction ranges as [|r ranges IH]; intros w Hrun Hal.
  - simpl in *. injection Hrun as <-. split; [done | lia].
  - cbn [walk] in Hrun.
    destruct (callback code fallbackColor style w r) as [w1|e] eqn:Hcb; [| done].
    simpl in Hrun.
    destruct (callback_aligned style w w1 r Hcb Hal) as [Hal1 Hlen1].
    destruct (IH w1 Hrun Hal1) as [Hal' Hlen'].
    split; [done |]. rewrite Hlen', Hlen1. simpl. lia.
Qed.

Lemma highlight_text (style : HighlightStyle) (ranges : list Range) (spans : list Token) :
  highlight code fallbackColor style ranges = Ok spans ->
  text spans = String.substring 0 (reach ranges) code.
Proof.
  unfold highlight.
  destruct (walk code fallbackColor style ranges start) as [w|e] eqn:Hrun; [| done].
  simpl. intros [= <-].
  destruct (walk_covers style ranges start w Hrun) as [Hal Hlen]; [by intros j t |].
  unfold joined. rewrite fold_join_text. change (text []) with "".
  rewrite append_nil_l, (aligned_text code) by done.
  rewrite Hlen. done.
Qed.

End WalkFacts.

(** C2, at a text whose last code unit is in no range.  The walk is given
    the range [(0, 2)] of the text [ab;]: it leaves two entries, whose text
    is [ab], and index [2] has no entry and so no colour. *)
Theorem walk_stops_at_last_range :
  exists w,
    walk "ab;" "#c9d1d9" one_rule [(0, 2, "k")] start = Ok w /\
    text (entries w) = "ab" /\
    entries w !! 2 = None /\
    highlight "ab;" "#c9d1d9" one_rule [(0, 2, "k")]
      = Ok [ {| token := "ab"; color := Some "#ff7b72" |} ].
Proof. eexists. repeat split; reflexivity. Qed.

(** C4, for every text.  When the tree walker never calls back, the array
    stays empty: no code unit of the text is in the stream, with the
    fallback colour or any other. *)
Theorem highlight_without_callback (code : string) (style : HighlightStyle) :
  highlight code "#c9d1d9" style [] = Ok [] /\
  walk code "#c9d1d9" style [] start = Ok start.
Proof. split; reflexivity. Qed.

(** ** Overlapping ranges *)

Lemma substring_one (j : nat) (s : string) :
  j < String.length s -> String.length (String.substring j 1 s) = 1.
Proof.
  revert s. induction j as [|j IH]; intros [|c s] Hj; simpl in *; try lia.
  - by destruct s.
  - apply IH. lia.
Qed.

Lemma colors_of_chars (ts : list Token) :
  (forall j t, ts !! j = Some t -> String.length (token t) = 1) ->
  colors ts = map color ts.
Proof.
  induction ts as [|t ts IH]; intros Hone; [done |].
  change (colors (t :: ts)) with (replicate (String.length (token t)) (color t) ++ colors ts).
  rewrite (Hone 0 t) by done. simpl. f_equal.
  apply IH. intros j u Hj. by apply (Hone (S j)).
Qed.

(** C7.  With the ranges [(0, 10, a)] and then [(3, 6, b)] on a text of ten
    code units or more, indices 3 to 5 have the colour of [b]'s rule and
    indices 0 to 2 and 6 to 9 the colour of [a]'s rule, in the array the
    walk leaves and in the stream [highlight] returns. *)
Theorem overlap_last_wins
    (code fallbackColor : string) (style : HighlightStyle) (ra rb : string) :
  findRule style "a" = Some ra ->
  findRule style "b" = Some rb ->
  10 <= String.length code ->
  exists w spans,
    walk code fallbackColor style [(0, 10, "a"); (3, 6, "b")] start = Ok w /\
    highlight code fallbackColor style [(0, 10, "a"); (3, 6, "b")] = Ok spans /\
    (forall i, 3 <= i < 6 ->
       color <$> entries w !! i = Some (ruleColor rb) /\
       colors spans !! i = Some (ruleColor rb)) /\
    (forall i, i < 3 \/ 6 <= i < 10 ->
       color <$> entries w !! i = Some (ruleColor ra) /\
       colors spans !! i = Some (ruleColor ra)).
Proof.
  intros Ha Hb Hlen.
  destruct (callback_spec code fallbackColor style start 0 10 "a" ra Ha)
    as (w1 & Hrun1 & _ & Hlen1 & Hlk1).
  destruct (callback_spec code fallbackColor style w1 3 6 "b" rb Hb)
    as (w2 & Hrun2 & _ & Hlen2 & Hlk2).
  assert (Hwalk : walk code fallbackColor style [(0, 10, "a"); (3, 6, "b")] start = Ok w2).
  { cbn [walk]. rewrite Hrun1, bind_Ok, Hrun2, bind_Ok. done. }
  assert (Hentry : forall i, i < 10 ->
            entries w2 !! i =
              Some (set_color (if decide (3 <= i < 6) then ruleColor rb else ruleColor ra)
                              (gap code fallbackColor i))).
  { intros i Hi. rewrite Hlk2, fill_lookup, Hlk1, fill_lookup.
    simpl in Hlen1. rewrite Hlen1. simpl.
    repeat case_decide; try lia; done. }
  assert (Hcolor : forall i, i < 10 ->
            color <$> entries w2 !! i =
              Some (if decide (3 <= i < 6) then ruleColor rb else ruleColor ra)).
  { intros i Hi. by rewrite Hentry. }
  assert (Hcolors : colors (joined (entries w2)) = map color (entries w2)).
  { rewrite joined_colors. apply colors_of_chars. intros j t Hj.
    assert (j < 10) as Hj10.
    { apply lookup_lt_Some in Hj. simpl in Hlen1. rewrite Hlen2, Hlen1 in Hj. lia. }
    rewrite Hentry in Hj by done. injection Hj as <-. simpl.
    apply substring_one. lia. }
  exists w2, (joined (entries w2)). split; [done |]. split.
  { unfold highlight. rewrite Hwalk. done. }
  split; intros i Hi; rewrite Hcolors, list_lookup_fmap, Hcolor by lia;
    case_decide; try lia; done.
Qed.

Lemma overlap_last_wins_witness :
  exists w spans,
    walk "0123456789ab" "#c9d1d9" two_rules [(0, 10, "a"); (3, 6, "b")] start = Ok w /\
    highlight "0123456789ab" "#c9d1d9" two_rules [(0, 10, "a"); (3, 6, "b")] = Ok spans /\
    (forall i, 3 <= i < 6 ->
       color <$> entries w !! i = Some (ruleColor ".b {color: blue;}") /\
       colors spans !! i = Some (ruleColor ".b {color: blue;}")) /\
    (forall i, i < 3 \/ 6 <= i < 10 ->
       color <$> entries w !! i = Some (ruleColor ".a {color: red;}") /\
       colors spans !! i = Some (ruleColor ".a {color: red;}")).
Proof.
  apply (overlap_last_wins "0123456789ab" "#c9d1d9" two_rules
           ".a {color: red;}" ".b {color: blue;}").
  - reflexivity.
  - reflexivity.
  - simpl. lia.
Defined.

Example overlap_example :
  highlight "0123456789ab" "#c9d1d9" two_rules [(0, 10, "a"); (3, 6, "b")]
  = Ok [ {| token := "012"; color := Some "red" |};
         {| token := "345"; color := Some "blue" |};
         {| token := "6789"; color := Some "red" |} ].
Proof. reflexivity. Qed.

(** ** Re-grouping the segments *)

Lemma has_ws_append (s1 s2 : string) :
  JS.has_ws (s1 +:+ s2) = JS.has_ws s1 || JS.has_ws s2.
Proof.
  induction s1 as [|c s1 IH]; [done |].
  rewrite append_cons. simpl. rewrite IH. by destruct (JS.is_ws c).
Qed.

Lemma regroup_step_glued (a a' : list string) (i : string) :
  regroup_step a i = Ok a' -> glued a -> glued a'.
Proof.
  unfold regroup_step, glued. destruct (JS.has_ws i) eqn:Hws; simpl.
  - intros [= <-] Hgl. destruct a as [|x a]; simpl in *; [done |].
    apply Forall_app. split; [done |]. by apply Forall_singleton.
  - destruct (last a) as [l|] eqn:Hlast; [| done].
    intros [= <-] Hgl. apply last_split in Hlast.
    rewrite Hlast in Hgl. destruct (removelast a) as [|x front]; simpl in *; [done |].
    apply Forall_app in Hgl as [Hfront Hl]. apply Forall_app. split; [done |].
    rewrite Forall_singleton in Hl. apply Forall_singleton.
    by rewrite has_ws_append, Hl.
Qed.

Lemma reduce_regroup_glued (segments a a' : list string) :
  reduce regroup_step segments a = Ok a' -> glued a -> glued a'.
Proof.
  revert a. induction segments as [|i segments IH]; intros a Hrun Hgl; simpl in Hrun.
  - by injection Hrun as <-.
  - apply bind_returns in Hrun as (a1 & Hstep & Hrun).
    eapply IH; [done |]. by eapply regroup_step_glued.
Qed.

(** A segment without whitespace is appended to the last element whatever
    that element is, so no element after the first is free of whitespace. *)
Lemma regroup_glued (segments chars : list string) :
  regroup segments = Ok chars -> glued chars.
Proof.
  intros Hrun. eapply reduce_regroup_glued; [done |].
  unfold glued. simpl. constructor.
Qed.

Example regroup_words : regroup ["ab"; " "; "cd"] = Ok ["ab"; " cd"].
Proof. reflexivity. Qed.

Example regroup_graphemes : regroup ["a"; "b"; " "; "c"; "d"] = Ok ["ab"; " cd"].
Proof. reflexivity. Qed.

Example regroup_leading_space : regroup [" "; "ab"] = Ok [""; " ab"].
Proof. reflexivity. Qed.

(** A line feed followed by a word is no longer the token that
    [desiredSize] and [draw] compare with the line feed to break the line. *)
Example regroup_line_feed :
  regroup [";"; JS.nl; "foo"; "("] = Ok [";"; JS.nl +:+ "foo("].
Proof. reflexivity. Qed.

(** C3, at the text of the claim.  However the segmenter cuts [ab cd], the
    clusters are not [ab], the space, [cd]: the space is followed by [cd]
    in one cluster.  Cut into words, or into single characters, the text
    gives [ab] and then the space with [cd]. *)
Theorem tokens_glue_space_to_next
    (segment : string -> list string) (c : option string) :
  tokens segment [ {| token := "ab cd"; color := c |} ]
    <> Ok [ {| token := "ab"; color := c |};
            {| token := " "; color := c |};
            {| token := "cd"; color := c |} ] /\
  tokens (fun _ => ["ab"; " "; "cd"]) [ {| token := "ab cd"; color := c |} ]
    = Ok [ {| token := "ab"; color := c |}; {| token := " cd"; color := c |} ] /\
  tokens (fun _ => ["a"; "b"; " "; "c"; "d"]) [ {| token := "ab cd"; color := c |} ]
    = Ok [ {| token := "ab"; color := c |}; {| token := " cd"; color := c |} ].
Proof.
  split; [| split; reflexivity].
  unfold tokens. cbn [mapM]. intros Hrun.
  apply bind_returns in Hrun as (parts & Hparts & Hout).
  apply bind_returns in Hparts as (part & Hpart & Hparts).
  simpl in Hparts. injection Hparts as <-.
  unfold split_token in Hpart.
  apply bind_returns in Hpart as (chars & Hchars & Hpart).
  apply regroup_glued in Hchars.
  injection Hpart as <-. simpl in Hout. rewrite app_nil_r in Hout.
  destruct chars as [|x1 [|x2 [|x3 [|x4 chars]]]]; try discriminate Hout.
  injection Hout as -> -> ->.
  unfold glued in Hchars. simpl in Hchars.
  apply Forall_cons in Hchars as [_ Hchars].
  apply Forall_cons in Hchars as [Hcd _].
  discriminate Hcd.
Qed.

(** ** Blending *)

Section BlendSteps.

Variable Color : Type.
Variable newColor : option string -> option Color.
Variable mix : Color -> Color -> Q -> Color.
Variable hex : Color -> string.

Local Abbreviation blend_pair := (blend Color newColor mix hex).
Local Abbreviation blend_streams := (highlighted Color newColor mix hex).

Lemma zipped_returns (old new : list Token) (i : nat) :
  returns (zipped (Ok (Some old)) i new).
Proof.
  revert i. induction new as [|t new IH]; intros i; cbn [zipped]; [by eexists |].
  rewrite bind_Ok. destruct (IH (S i)) as [z ->]. rewrite bind_Ok. by eexists.
Qed.

Lemma zipped_shift (o : Token) (old new : list Token) (i : nat) :
  zipped (Ok (Some (o :: old))) (S i) new = zipped (Ok (Some old)) i new.
Proof.
  revert i. induction new as [|t new IH]; intros i; cbn [zipped]; [done |].
  rewrite !bind_Ok, IH. done.
Qed.

(** How [highlighted] goes through the two streams. *)
Lemma blend_streams_nil (p : Q) (old : list Token) :
  blend_streams (Some p) (Ok []) (Ok (Some old)) = Ok [].
Proof. reflexivity. Qed.

Lemma blend_streams_cons (p : Q) (n o : Token) (new old : list Token) :
  blend_streams (Some p) (Ok (n :: new)) (Ok (Some (o :: old)))
  = (t ← blend_pair p (n, Some o);
     ts ← blend_streams (Some p) (Ok new) (Ok (Some old));
     Ok (t :: ts)).
Proof.
  unfold highlighted. rewrite !bind_Ok. cbn [zipped]. rewrite bind_Ok, zipped_shift.
  destruct (zipped_returns old new 0) as [z ->]. rewrite !bind_Ok. reflexivity.
Qed.

Lemma blend_streams_short (p : Q) (n : Token) (new : list Token) :
  blend_streams (Some p) (Ok (n :: new)) (Ok (Some [])) = Throw UndefinedOldToken.
Proof.
  unfold highlighted. rewrite !bind_Ok. cbn [zipped]. rewrite bind_Ok.
  destruct (zipped_returns [] new 1) as [z ->]. rewrite !bind_Ok. reflexivity.
Qed.

Lemma blend_pair_reads (p : Q) (n o : Token) (a b : Color) :
  newColor (color n) = Some a -> newColor (color o) = Some b ->
  blend_pair p (n, Some o)
  = Ok {| token := token n; color := Some (hex (mix a b (1 - p))) |}.
Proof. intros Ha Hb. unfold blend, blendHsl. by rewrite Ha, Hb. Qed.

(** The class raises on the first colour it cannot read. *)
Lemma blend_pair_unread (p : Q) (n o : Token) :
  newColor (color n) = None \/ newColor (color o) = None ->
  blend_pair p (n, Some o) = Throw UnknownFormat.
Proof.
  intros Hnone. unfold blend, blendHsl.
  destruct (newColor (color n)); [| done].
  destruct Hnone as [? | ->]; done.
Qed.

Lemma blend_pair_throws (p : Q) (n o : Token) (e : TypeError) :
  blend_pair p (n, Some o) = Throw e -> e = UnknownFormat.
Proof.
  unfold blend, blendHsl.
  destruct (newColor (color n)); [| rewrite bind_Throw; by intros [= <-]].
  destruct (newColor (color o)); [done | rewrite bind_Throw; by intros [= <-]].
Qed.

(** Streams whose colours are read blend token by token. *)
Lemma blend_streams_reads (p : Q) (new old : list Token) (cn co : list Color) :
  length new <= length old ->
  reads newColor new cn ->
  reads newColor (take (length new) old) co ->
  blend_streams (Some p) (Ok new) (Ok (Some old))
  = Ok (zip_with (fun n ab => {| token := token n;
                                 color := Some (hex (mix ab.1 ab.2 (1 - p))) |})
                 new (zip cn co)).
Proof.
  intros Hlen Hnew. revert old co Hlen.
  induction Hnew as [|n a new cn Ha _ IH]; intros old co Hlen Hold.
  - apply blend_streams_nil.
  - destruct old as [|o old]; simpl in Hlen; [lia |].
    simpl in Hold. apply Forall2_cons_inv_l in Hold as (b & co' & Hb & Hold & ->).
    rewrite blend_streams_cons, (blend_pair_reads p n o a b Ha Hb), bind_Ok.
    rewrite (IH old co') by (done || lia). reflexivity.
Qed.

End BlendSteps.

Section BlendFacts.

Variable Color : Type.
Variable newColor : option string -> option Color.
Variable mix : Color -> Color -> Q -> Color.
Variable hex : Color -> string.

(** How the colour class interpolates at the two ends: with amount [0]
    the colour is the receiver, with amount [1] the argument. *)
Hypothesis mix_0 : forall a b, hex (mix a b 0%Q) = hex a.
Hypothesis mix_1 : forall a b, hex (mix a b 1%Q) = hex b.


End BlendFacts.



(** ** [tweenStyle] *)




(** The only exception of [highlight] is the one for a missing rule. *)
Lemma callback_throws (code fallbackColor : string) (style : HighlightStyle)
    (w : Walk) (r : Range) (e : TypeError) :
  callback code fallbackColor style w r = Throw e -> e = UndefinedRule.
Proof.
  destruct r as [[from to] classList].
  destruct (findRule style classList) as [rule|] eqn:Hrule.
  - destruct (callback_spec code fallbackColor style w from to classList rule Hrule)
      as (w' & -> & _). done.
  - rewrite callback_no_rule by done. by intros [= <-].
Qed.

Lemma walk_throws (code fallbackColor : string) (style : HighlightStyle)
    (ranges : list Range) (w : Walk) (e : TypeError) :
  walk code fallbackColor style ranges w = Throw e -> e = UndefinedRule.
Proof.
  revert w. induction ranges as [|r ranges IH]; intros w; cbn [walk]; [done |].
  destruct (callback code fallbackColor style w r) as [w'|e'] eqn:Hcb.
  - rewrite bind_Ok. apply IH.
  - rewrite bind_Throw. intros [= <-]. by eapply callback_throws.
Qed.

Lemma highlight_throws (code fallbackColor : string) (style : HighlightStyle)
    (ranges : list Range) (e : TypeError) :
  highlight code fallbackColor style ranges = Throw e -> e = UndefinedRule.
Proof.
  unfold highlight.
  destruct (walk code fallbackColor style ranges start) as [w|e'] eqn:Hw; [done |].
  rewrite bind_Throw. intros [= <-]. by eapply walk_throws.
Qed.

Section NullStream.

Variable Color : Type.
Variable newColor : option string -> option Color.
Variable mix : Color -> Color -> Q -> Color.
Variable hex : Color -> string.




End NullStream.






(** ** Where the pipeline raises *)

Lemma split_from_rest_nil (s cur : string) :
  (JS.split_from JS.nl s cur 0).2 = [] <-> first_line s = s.
Proof.
  revert cur. induction s as [|c s IH]; intros cur; [done |].
  cbn [JS.split_from first_line]. rewrite prefix_nl.
  destruct (Ascii.eqb c "010"%char).
  - simpl. destruct (JS.split_from _ _ _ _). split; discriminate.
  - rewrite IH. split; [by intros -> | by intros [= ->]].
Qed.

(** [correctWhitespace] raises exactly on a text that is one blank line. *)
Lemma correctWhitespace_throws (str : string) :
  correctWhitespace str = Throw UndefinedLine <->
  JS.all_ws str = true /\ first_line str = str.
Proof.
  unfold correctWhitespace. rewrite split_first_line.
  pose proof (split_from_rest_nil str "") as Hnil. fold (JS.split JS.nl str) in Hnil.
  destruct (JS.all_ws (first_line str)) eqn:Hblank; simpl.
  - destruct (JS.split JS.nl str).2 as [|secondLine rest] eqn:Hrest; simpl.
    + assert (Hfirst : first_line str = str) by by apply Hnil.
      rewrite Hfirst in Hblank. done.
    + split; [done |]. intros [_ Hfirst]. apply Hnil in Hfirst. done.
  - split; [done |]. intros [Hws Hfirst]. rewrite Hfirst in Hblank. congruence.
Qed.

Lemma correctWhitespace_returns (str : string) :
  returns (correctWhitespace str) <-> ~ (JS.all_ws str = true /\ first_line str = str).
Proof.
  rewrite <- correctWhitespace_throws. unfold returns, correctWhitespace.
  destruct (negb _); [split; [done | eauto] |].
  destruct (_ !! 0); [split; [done | eauto] |].
  split; [by intros [a Ha] | done].
Qed.

(** The walk raises exactly when a class list is in no rule. *)
Lemma walk_returns (code fallbackColor : string) (style : HighlightStyle)
    (ranges : list Range) (w : Walk) :
  Forall (fun r => is_Some (findRule style r.2)) ranges ->
  returns (walk code fallbackColor style ranges w).
Proof.
  intros Hall. revert w. induction Hall as [|[[from to] classList] ranges [rule Hrule] _ IH];
    intros w; cbn [walk].
  - by exists w.
  - destruct (callback_spec code fallbackColor style w from to classList rule Hrule)
      as (w' & -> & _).
    rewrite bind_Ok. apply IH.
Qed.

Lemma walk_raises (code fallbackColor : string) (style : HighlightStyle)
    (ranges : list Range) (w : Walk) :
  Exists (fun r => findRule style r.2 = None) ranges ->
  walk code fallbackColor style ranges w = Throw UndefinedRule.
Proof.
  intros Hex.
  destruct (walk code fallbackColor style ranges w) as [w'|e] eqn:Hrun.
  - exfalso. revert w Hrun.
    induction Hex as [[[from to] classList] ranges Hnone | r ranges _ IH];
      intros w; cbn [walk].
    + by rewrite callback_no_rule.
    + intros Hrun. apply bind_returns in Hrun as (w1 & _ & Hrun). by eapply IH.
  - f_equal. by eapply walk_throws.
Qed.

(** Joining is a function; re-grouping never raises, because the array it
    folds over is never empty. *)
Lemma regroup_step_returns (a : list string) (i : string) :
  a <> [] -> exists a', regroup_step a i = Ok a' /\ a' <> [].
Proof.
  intros Hne. unfold regroup_step. destruct (negb (JS.has_ws i)).
  - destruct (last a) as [l|] eqn:Hlast.
    + eexists. split; [done |]. by destruct (removelast a).
    + by apply last_None in Hlast.
  - eexists. split; [done |]. by destruct a.
Qed.

Lemma regroup_returns (segments : list string) : returns (regroup segments).
Proof.
  unfold regroup. assert (Hne : [""] <> []) by done. revert Hne.
  generalize [""]. induction segments as [|i segments IH]; intros a Hne; simpl.
  - by exists a.
  - destruct (regroup_step_returns a i Hne) as (a' & -> & Hne').
    rewrite bind_Ok. by apply IH.
Qed.

Lemma tokens_returns (segment : string -> list string) (highlighted : list Token) :
  returns (tokens segment highlighted).
Proof.
  unfold tokens.
  assert (Hparts : returns (mapM (split_token segment) highlighted)).
  { induction highlighted as [|t ts [parts IH]]; [by exists [] |].
    cbn [mapM]. rewrite IH. unfold split_token.
    destruct (regroup_returns (segment (token t))) as [chars ->].
    rewrite !bind_Ok. by eexists. }
  destruct Hparts as [parts ->]. rewrite bind_Ok. by eexists.
Qed.

(** Blending raises when the old stream is the shorter one. *)
Example highlighted_shorter_old :
  highlighted string sample_newColor sample_mix sample_hex (Some 0%Q)
    (Ok [ {| token := "ab"; color := Some "red" |};
          {| token := "cd"; color := Some "blue" |} ])
    (Ok (Some [ {| token := "abcd"; color := Some "#c9d1d9" |} ]))
  = Throw UndefinedOldToken.
Proof. reflexivity. Qed.

(** C5, at two inputs that raise.  A text of one blank line has no second
    line, and [secondLine.match] raises; a class list that no rule mentions
    leaves [rule] undefined, and [rule.split] raises. *)
Theorem pipeline_raises :
  correctWhitespace "" = Throw UndefinedLine /\
  correctWhitespace "  " = Throw UndefinedLine /\
  highlight "x" "#c9d1d9" one_rule [(0, 1, "z")] = Throw UndefinedRule.
Proof. repeat split; reflexivity. Qed.

(** * Further properties *)

(** ** Lines *)

Lemma join_cons (x y : string) (l : list string) :
  JS.join JS.nl (x :: y :: l) = x +:+ JS.nl +:+ JS.join JS.nl (y :: l).
Proof. reflexivity. Qed.

Lemma split_from_join (s cur : string) :
  JS.join JS.nl (JS.array (JS.split_from JS.nl s cur 0)) = cur +:+ s.
Proof.
  revert cur. induction s as [|c s IH]; intros cur.
  - simpl. by rewrite append_empty_r.
  - cbn [JS.split_from]. rewrite prefix_nl.
    destruct (Ascii.eqb_spec c "010"%char) as [-> | Hne].
    + specialize (IH ""). simpl String.length. simpl Nat.sub.
      destruct (JS.split_from JS.nl s "" 0) as [h t] eqn:Hsplit.
      unfold JS.array in *. simpl fst in *. simpl snd in *.
      rewrite join_cons, IH. reflexivity.
    + rewrite IH, append_assoc. reflexivity.
Qed.

Lemma one_line_cons (c : ascii) (s : string) :
  one_line (String c s) <-> c <> "010"%char /\ one_line s.
Proof.
  unfold one_line. simpl. destruct (Ascii.eqb_spec c "010"%char) as [-> | Hne].
  - split; [discriminate | by intros [? _]].
  - split; [by intros [= Hs] | intros [_ Hs]; by rewrite Hs].
Qed.

Lemma one_line_append (s1 s2 : string) :
  one_line s1 -> one_line s2 -> one_line (s1 +:+ s2).
Proof.
  induction s1 as [|c s1 IH]; [done |].
  rewrite append_cons, !one_line_cons. intros [Hc Hs1] Hs2. split; [done |]. by apply IH.
Qed.

Lemma one_line_drop (n : nat) (s : string) : one_line s -> one_line (JS.drop n s).
Proof.
  revert s. induction n as [|n IH]; intros [|c s]; simpl; try done.
  rewrite one_line_cons. intros [_ Hs]. by apply IH.
Qed.

Lemma one_line_strip_prefix (p line : string) :
  one_line line -> one_line (JS.strip_prefix p line).
Proof.
  unfold JS.strip_prefix. destruct (String.prefix p line); [apply one_line_drop | done].
Qed.

(** The pieces of [str.split('\n')] hold no line feed. *)
Lemma split_from_one_line (s cur : string) :
  one_line cur -> Forall one_line (JS.array (JS.split_from JS.nl s cur 0)).
Proof.
  revert cur. induction s as [|c s IH]; intros cur Hcur.
  - simpl. by repeat constructor.
  - cbn [JS.split_from]. rewrite prefix_nl.
    destruct (Ascii.eqb_spec c "010"%char) as [-> | Hne].
    + specialize (IH "" eq_refl). simpl String.length. simpl Nat.sub.
      destruct (JS.split_from JS.nl s "" 0) as [h t].
      unfold JS.array in *. simpl in *. by constructor.
    + apply IH. apply one_line_append; [done |].
      apply one_line_cons. by split.
Qed.

Lemma split_from_one_line_prefix (x rest cur : string) :
  one_line x ->
  JS.split_from JS.nl (x +:+ rest) cur 0 = JS.split_from JS.nl rest (cur +:+ x) 0.
Proof.
  revert cur. induction x as [|c x IH]; intros cur Hx.
  - by rewrite append_nil_l, append_empty_r.
  - apply one_line_cons in Hx as [Hc Hx].
    rewrite append_cons. cbn [JS.split_from]. rewrite prefix_nl.
    destruct (Ascii.eqb_spec c "010"%char) as [-> | _]; [done |].
    rewrite IH by done. by rewrite append_assoc.
Qed.

(** Splitting what was joined gives the lines back. *)
Lemma split_join (x : string) (lines : list string) :
  one_line x -> Forall one_line lines ->
  JS.split JS.nl (JS.join JS.nl (x :: lines)) = (x, lines).
Proof.
  intros Hx Hlines. revert x Hx.
  induction Hlines as [|l lines Hl _ IH]; intros x Hx; unfold JS.split.
  - simpl JS.join. rewrite <- (append_empty_r x) at 1.
    rewrite split_from_one_line_prefix by done. reflexivity.
  - rewrite join_cons, split_from_one_line_prefix by done.
    change (JS.nl +:+ JS.join JS.nl (l :: lines))
      with (String "010"%char (JS.join JS.nl (l :: lines))).
    cbn [JS.split_from]. rewrite prefix_nl, Ascii.eqb_refl.
    simpl String.length. simpl Nat.sub.
    specialize (IH l Hl). unfold JS.split in IH. rewrite IH. reflexivity.
Qed.

Lemma strip_prefix_unindented (p line : string) :
  unindented p line (JS.strip_prefix p line).
Proof.
  unfold unindented, JS.strip_prefix.
  destruct (String.prefix p line) eqn:Hp; [left | by right].
  revert line Hp. induction p as [|c p IH]; intros line Hp.
  - by destruct line.
  - destruct line as [|c' line]; [done |].
    simpl in Hp. destruct (ascii_dec c c') as [<- | ?]; [| done].
    rewrite append_cons. simpl. f_equal. by apply IH.
Qed.

Lemma leading_drop_ws (s : string) : JS.leading_ws (JS.drop_ws s) = "".
Proof.
  induction s as [|c s IH]; [done |].
  simpl. destruct (JS.is_ws c) eqn:Hc; [done |]. simpl. by rewrite Hc.
Qed.

Lemma prefix_cons (c : ascii) (p s : string) :
  String.prefix (String c p) (String c s) = String.prefix p s.
Proof.
  change (String.prefix (String c p) (String c s))
    with (if ascii_dec c c then String.prefix p s else false).
  by destruct (ascii_dec c c).
Qed.

Lemma prefix_leading_ws (s : string) :
  JS.strip_prefix (JS.leading_ws s) s = JS.drop_ws s.
Proof.
  unfold JS.strip_prefix.
  assert (Hp : String.prefix (JS.leading_ws s) s = true).
  { induction s as [|c s IH]; [done |].
    cbn [JS.leading_ws]. destruct (JS.is_ws c); [by rewrite prefix_cons | done]. }
  rewrite Hp. clear Hp. induction s as [|c s IH]; [done |].
  cbn [JS.leading_ws JS.drop_ws]. destruct (JS.is_ws c); [exact IH | done].
Qed.

(** What [correctWhitespace] returns for a blank first line, line by line. *)
Lemma correctWhitespace_split (str secondLine : string) (rest : list string) :
  first_line_blank str = true ->
  (JS.split JS.nl str).2 = secondLine :: rest ->
  exists out,
    correctWhitespace str = Ok out /\
    JS.split JS.nl out =
      (JS.strip_prefix (JS.leading_ws secondLine) secondLine,
       map (JS.strip_prefix (JS.leading_ws secondLine)) rest).
Proof.
  intros Hblank Hlines.
  pose proof (split_from_one_line str "" eq_refl) as Hone.
  fold (JS.split JS.nl str) in Hone. unfold JS.array in Hone.
  apply Forall_cons in Hone as [_ Hone]. rewrite Hlines in Hone.
  apply Forall_cons in Hone as [Hsecond Hrest].
  unfold correctWhitespace. rewrite split_first_line.
  unfold first_line_blank in Hblank. rewrite Hblank, Hlines. simpl.
  eexists. split; [reflexivity |].
  apply split_join.
  - by apply one_line_strip_prefix.
  - apply Forall_fmap. eapply Forall_impl; [exact Hrest |].
    intros line Hline. by apply one_line_strip_prefix.
Qed.

(** ** [correctWhitespace], further *)

(** X1.  [correctWhitespace] raises exactly when the text is one line of
    nothing but whitespace (the empty text too); on every other text it
    returns. *)
Theorem correctWhitespace_raises_iff (str : string) :
  (correctWhitespace str = Throw UndefinedLine <-> JS.all_ws str = true /\ one_line str) /\
  (returns (correctWhitespace str) <-> ~ (JS.all_ws str = true /\ one_line str)).
Proof.
  split; [apply correctWhitespace_throws | apply correctWhitespace_returns].
Qed.

Lemma map_unindented (p : string) (lines : list string) :
  Forall2 (unindented p) lines (map (JS.strip_prefix p) lines).
Proof.
  induction lines as [|line lines IH]; simpl; constructor;
    [apply strip_prefix_unindented | done].
Qed.

(** X2.  When the first line is blank and a second line exists, the result
    has one line for each line after the first, in order: that line
    without the leading whitespace of the second line when it starts with
    exactly it, and that line unchanged when it does not. *)
Theorem correctWhitespace_strips_indent (str secondLine : string) (rest : list string) :
  first_line_blank str = true ->
  (JS.split JS.nl str).2 = secondLine :: rest ->
  exists out,
    correctWhitespace str = Ok out /\
    Forall2 (unindented (JS.leading_ws secondLine))
            (secondLine :: rest) (JS.array (JS.split JS.nl out)).
Proof.
  intros Hblank Hlines.
  destruct (correctWhitespace_split str secondLine rest Hblank Hlines) as (out & Hrun & Hsplit).
  exists out. split; [done |]. rewrite Hsplit.
  apply (map_unindented _ (secondLine :: rest)).
Qed.

Lemma correctWhitespace_strips_indent_witness :
  exists out,
    correctWhitespace (JS.nl +:+ "  foo" +:+ JS.nl +:+ " bar" +:+ JS.nl +:+ "    baz") = Ok out /\
    Forall2 (unindented (JS.leading_ws "  foo"))
            ("  foo" :: [" bar"; "    baz"]) (JS.array (JS.split JS.nl out)).
Proof.
  apply (correctWhitespace_strips_indent
           (JS.nl +:+ "  foo" +:+ JS.nl +:+ " bar" +:+ JS.nl +:+ "    baz")
           "  foo" [" bar"; "    baz"]); reflexivity.
Defined.

(** X3.  After a blank first line was dropped, the first line of the
    result does not start with whitespace. *)
Theorem correctWhitespace_first_line_flush (str out : string) :
  first_line_blank str = true ->
  correctWhitespace str = Ok out ->
  JS.leading_ws (first_line out) = "".
Proof.
  intros Hblank Hrun.
  destruct (JS.split JS.nl str).2 as [|secondLine rest] eqn:Hlines.
  - unfold correctWhitespace in Hrun. rewrite split_first_line in Hrun.
    unfold first_line_blank in Hblank. rewrite Hblank, Hlines in Hrun. done.
  - destruct (correctWhitespace_split str secondLine rest Hblank Hlines)
      as (out' & Hrun' & Hsplit).
    rewrite Hrun in Hrun'. injection Hrun' as <-.
    rewrite <- split_first_line, Hsplit. simpl.
    rewrite prefix_leading_ws. apply leading_drop_ws.
Qed.

Lemma correctWhitespace_first_line_flush_witness :
  JS.leading_ws (first_line ("foo" +:+ JS.nl +:+ "  bar")) = "".
Proof.
  apply (correctWhitespace_first_line_flush
           (" " +:+ JS.nl +:+ "    foo" +:+ JS.nl +:+ "      bar")); reflexivity.
Defined.

Lemma strip_empty_prefix (line : string) : JS.strip_prefix "" line = line.
Proof. by destruct line. Qed.

(** X4.  When the second line starts with no whitespace, nothing but the
    blank first line and its line feed is removed: the text is its first
    line, a line feed and the result. *)
Theorem correctWhitespace_drops_blank_line (str secondLine : string) :
  first_line_blank str = true ->
  (JS.split JS.nl str).2 !! 0 = Some secondLine ->
  JS.leading_ws secondLine = "" ->
  exists out,
    correctWhitespace str = Ok out /\
    str = first_line str +:+ JS.nl +:+ out.
Proof.
  intros Hblank Hsecond Hflush.
  unfold correctWhitespace. rewrite split_first_line.
  unfold first_line_blank in Hblank. rewrite Hblank, Hsecond, Hflush. simpl.
  eexists. split; [reflexivity |].
  pose proof (split_from_join str "") as Hjoin. fold (JS.split JS.nl str) in Hjoin.
  rewrite append_nil_l in Hjoin. unfold JS.array in Hjoin.
  rewrite split_first_line in Hjoin.
  destruct (JS.split JS.nl str).2 as [|l rest]; [done |].
  rewrite join_cons in Hjoin.
  rewrite (map_ext _ id), map_id; [by symmetry |].
  apply strip_empty_prefix.
Qed.

Lemma correctWhitespace_drops_blank_line_witness :
  exists out,
    correctWhitespace ("  " +:+ JS.nl +:+ "foo" +:+ JS.nl +:+ "  bar") = Ok out /\
    "  " +:+ JS.nl +:+ "foo" +:+ JS.nl +:+ "  bar"
      = first_line ("  " +:+ JS.nl +:+ "foo" +:+ JS.nl +:+ "  bar") +:+ JS.nl +:+ out.
Proof.
  apply (correctWhitespace_drops_blank_line
           ("  " +:+ JS.nl +:+ "foo" +:+ JS.nl +:+ "  bar") "foo"); reflexivity.
Defined.

(** ** [highlight], further *)

Lemma substring_length (n : nat) (s : string) :
  String.length (String.substring 0 n s) = n `min` String.length s.
Proof.
  revert s. induction n as [|n IH]; intros [|c s]; simpl; try done.
  by rewrite IH.
Qed.

(** X5.  The stream [highlight] returns holds the text up to the largest
    [to] the walker reported and nothing after it: its text is that prefix,
    and it colours that many code units, or all of them if the text is
    shorter. *)
Theorem highlight_covers_prefix
    (code fallbackColor : string) (style : HighlightStyle)
    (ranges : list Range) (spans : list Token) :
  highlight code fallbackColor style ranges = Ok spans ->
  text spans = String.substring 0 (reach ranges) code /\
  String.length (text spans) = reach ranges `min` String.length code.
Proof.
  intros Hrun. apply highlight_text in Hrun. split; [done |].
  rewrite Hrun. apply substring_length.
Qed.

Lemma highlight_covers_prefix_witness :
  text [ {| token := "01"; color := Some "red" |};
         {| token := "234"; color := Some "#c9d1d9" |};
         {| token := "5"; color := Some "blue" |} ]
    = String.substring 0 (reach [(0, 2, "a"); (5, 6, "b")]) "0123456789" /\
  String.length (text [ {| token := "01"; color := Some "red" |};
                        {| token := "234"; color := Some "#c9d1d9" |};
                        {| token := "5"; color := Some "blue" |} ])
    = reach [(0, 2, "a"); (5, 6, "b")] `min` String.length "0123456789".
Proof.
  apply (highlight_covers_prefix "0123456789" "#c9d1d9" two_rules
           [(0, 2, "a"); (5, 6, "b")]).
  reflexivity.
Defined.

Lemma find_snoc {A} (f : A -> bool) (l : list A) (a : A) :
  find f (l ++ [a]) =
    match find f l with
    | Some b => Some b
    | None => if f a then Some a else None
    end.
Proof.
  induction l as [|b l IH]; simpl; [done |]. by destruct (f b).
Qed.

Lemma classColor_rule (style : HighlightStyle) (classList rule : string) :
  findRule style classList = Some rule -> classColor style classList = ruleColor rule.
Proof. intros Hrule. unfold classColor. by rewrite Hrule. Qed.

(** The entry at an index after the walk: the colour is that of the last
    range that covers the index, and what was there before with none. *)
Lemma walk_lookup (code fallbackColor : string) (style : HighlightStyle)
    (ranges : list Range) (w0 w : Walk) (j : nat) :
  walk code fallbackColor style ranges w0 = Ok w ->
  aligned code (entries w0) ->
  j < length (entries w0) `max` reach ranges ->
  exists t,
    entries w !! j = Some t /\
    token t = String.substring j 1 code /\
    color t =
      match find (covers j) (rev ranges) with
      | Some r => classColor style r.2
      | None =>
          match entries w0 !! j with
          | Some t0 => color t0
          | None => Some fallbackColor
          end
      end.
Proof.
  revert w0. induction ranges as [|[[from to] classList] ranges IH]; intros w0 Hrun Hal Hj.
  - simpl in *. injection Hrun as <-.
    destruct (lookup_lt_is_Some_2 (entries w0) j) as [t Ht]; [lia |].
    exists t. rewrite Ht. repeat split. by apply Hal.
  - cbn [walk] in Hrun. apply bind_returns in Hrun as (w1 & Hcb & Hrun).
    destruct (findRule style classList) as [rule|] eqn:Hrule;
      [| by rewrite callback_no_rule in Hcb].
    destruct (callback_spec code fallbackColor style w0 from to classList rule Hrule)
      as (w1' & Hcb' & _ & Hlen & Hlk).
    rewrite Hcb in Hcb'. injection Hcb' as <-.
    destruct (callback_aligned code fallbackColor style w0 w1 _ Hcb Hal) as [Hal1 _].
    destruct (IH w1 Hrun Hal1) as (t & Ht & Htok & Hcol).
    { rewrite Hlen. simpl in Hj. lia. }
    exists t. split; [done |]. split; [done |].
    rewrite Hcol. cbn [rev]. rewrite find_snoc.
    destruct (find (covers j) (rev ranges)) as [r|]; [done |].
    rewrite Hlk, fill_lookup. unfold covers. simpl.
    case_bool_decide; case_decide; try lia.
    + cbn [snd]. rewrite (classColor_rule _ _ rule Hrule).
      repeat case_decide; try lia.
      * destruct (lookup_lt_is_Some_2 (entries w0) j) as [t0 Ht0]; [lia |].
        by rewrite Ht0.
      * done.
    + repeat case_decide; try lia.
      * done.
      * rewrite (lookup_ge_None_2 (entries w0) j) by lia. done.
      * rewrite (lookup_ge_None_2 (entries w0) j) by lia. done.
Qed.

(** X6.  After the walk, every index below the largest [to] holds its own
    code unit, with the colour that the rule of the last range covering
    the index gives, and with the fallback colour if no range covers it. *)
Theorem walk_last_range_wins
    (code fallbackColor : string) (style : HighlightStyle)
    (ranges : list Range) (w : Walk) (j : nat) :
  walk code fallbackColor style ranges start = Ok w ->
  j < reach ranges ->
  entries w !! j =
    Some {| token := String.substring j 1 code;
            color := last_wins style fallbackColor ranges j |}.
Proof.
  intros Hrun Hj.
  destruct (walk_lookup code fallbackColor style ranges start w j Hrun)
    as (t & Ht & Htok & Hcol); [by intros i u | simpl; lia |].
  rewrite Ht. f_equal. destruct t as [tok col]. simpl in *. subst.
  unfold last_wins. by destruct (find (covers j) (rev ranges)).
Qed.

Lemma walk_last_range_wins_witness :
  entries {| entries := [ {| token := "a"; color := Some "blue" |};
                          {| token := "b"; color := Some "red" |};
                          {| token := "c"; color := Some "#c9d1d9" |};
                          {| token := "d"; color := Some "red" |} ];
             warnings := [] |} !! 1 =
    Some {| token := String.substring 1 1 "abcde";
            color := last_wins two_rules "#c9d1d9"
                       [(0, 2, "a"); (3, 4, "a"); (0, 1, "b")] 1 |}.
Proof.
  apply (walk_last_range_wins "abcde" "#c9d1d9" two_rules
           [(0, 2, "a"); (3, 4, "a"); (0, 1, "b")]).
  - reflexivity.
  - simpl. lia.
Defined.

Lemma substring_past (j : nat) (s : string) :
  String.length s <= j -> String.substring j 1 s = "".
Proof.
  revert s. induction j as [|j IH]; intros [|c s] Hj; simpl in *; try done; try lia.
  apply IH. lia.
Qed.

Lemma colors_prefix (n : nat) (ts : list Token) :
  (forall j t, ts !! j = Some t ->
     String.length (token t) = if decide (j < n) then 1 else 0) ->
  colors ts = map color (take n ts).
Proof.
  revert n. induction ts as [|t ts IH]; intros n Hlen; [by destruct n |].
  change (colors (t :: ts)) with (replicate (String.length (token t)) (color t) ++ colors ts).
  rewrite (Hlen 0 t eq_refl). destruct n as [|n]; simpl.
  - rewrite (IH 0); [reflexivity |].
    intros j u Hu. rewrite (Hlen (S j) u Hu). repeat case_decide; try lia; done.
  - f_equal. apply IH. intros j u Hu. rewrite (Hlen (S j) u Hu).
    repeat case_decide; try lia; done.
Qed.

(** X7.  In the stream [highlight] returns, code unit [j] of the text, when
    below the largest [to], has the colour of the last range that covers
    it, and the fallback colour when none does. *)
Theorem highlight_last_range_wins
    (code fallbackColor : string) (style : HighlightStyle)
    (ranges : list Range) (spans : list Token) (j : nat) :
  highlight code fallbackColor style ranges = Ok spans ->
  j < reach ranges ->
  j < String.length code ->
  colors spans !! j = Some (last_wins style fallbackColor ranges j).
Proof.
  unfold highlight. intros Hrun Hreach Hcode.
  apply bind_returns in Hrun as (w & Hwalk & [= <-]).
  destruct (walk_covers code fallbackColor style ranges start w Hwalk) as [Hal Hlen];
    [by intros i u |].
  rewrite joined_colors, (colors_prefix (String.length code)).
  - rewrite list_lookup_fmap, lookup_take_lt by done.
    destruct (walk_lookup code fallbackColor style ranges start w j Hwalk)
      as (t & Ht & _ & Hcol); [by intros i u | simpl; lia |].
    rewrite Ht. simpl. rewrite Hcol. unfold last_wins.
    by destruct (find (covers j) (rev ranges)).
  - intros i t Hi. rewrite (Hal i t Hi). case_decide.
    + by apply substring_one.
    + rewrite substring_past by lia. done.
Qed.

Lemma highlight_last_range_wins_witness :
  colors [ {| token := "a"; color := Some "blue" |};
           {| token := "b"; color := Some "red" |};
           {| token := "c"; color := Some "#c9d1d9" |};
           {| token := "d"; color := Some "red" |} ] !! 2
    = Some (last_wins two_rules "#c9d1d9" [(0, 2, "a"); (3, 4, "a"); (0, 1, "b")] 2).
Proof.
  apply (highlight_last_range_wins "abcde" "#c9d1d9" two_rules
           [(0, 2, "a"); (3, 4, "a"); (0, 1, "b")]).
  - reflexivity.
  - simpl. lia.
  - simpl. lia.
Defined.

Lemma walk_warnings_from (code fallbackColor : string) (style : HighlightStyle)
    (ranges : list Range) (w0 w : Walk) :
  walk code fallbackColor style ranges w0 = Ok w ->
  warnings w =
    warnings w0 ++
    map (fun r => message r.2)
        (filter (fun r => unresolved (classColor style r.2) = true) ranges).
Proof.
  revert w0. induction ranges as [|[[from to] classList] ranges IH]; intros w0 Hrun.
  - simpl in Hrun. injection Hrun as <-. by rewrite app_nil_r.
  - cbn [walk] in Hrun. apply bind_returns in Hrun as (w1 & Hcb & Hrun).
    destruct (findRule style classList) as [rule|] eqn:Hrule;
      [| by rewrite callback_no_rule in Hcb].
    destruct (callback_spec code fallbackColor style w0 from to classList rule Hrule)
      as (w1' & Hcb' & Hwarn & _).
    rewrite Hcb in Hcb'. injection Hcb' as <-.
    rewrite (IH w1 Hrun), Hwarn, filter_cons. cbn [snd].
    rewrite (classColor_rule _ _ rule Hrule).
    destruct (unresolved (ruleColor rule)); case_decide; try done.
    simpl. by rewrite <- app_assoc.
Qed.

(** X8.  A walk that returns has warned once for every range whose class
    list resolves to no colour, in the order of the ranges: a class list
    seen in three ranges is warned about three times. *)
Theorem walk_warns_per_range
    (code fallbackColor : string) (style : HighlightStyle)
    (ranges : list Range) (w : Walk) :
  walk code fallbackColor style ranges start = Ok w ->
  warnings w =
    map (fun r => message r.2)
        (filter (fun r => unresolved (classColor style r.2) = true) ranges).
Proof. intros Hrun. by rewrite (walk_warnings_from _ _ _ _ _ _ Hrun). Qed.

Lemma walk_warns_per_range_witness :
  warnings {| entries := [ {| token := "a"; color := None |};
                           {| token := "b"; color := None |} ];
              warnings := [ "Unknown theme class 'k'"; "Unknown theme class 'k'" ] |}
    = map (fun r => message r.2)
          (filter (fun r => unresolved (classColor bold_only r.2) = true)
                  [(0, 1, "k"); (1, 2, "k")]).
Proof.
  apply (walk_warns_per_range "ab" "#c9d1d9" bold_only [(0, 1, "k"); (1, 2, "k")]).
  reflexivity.
Defined.

(** X9.  [highlight] returns exactly when every class list the walker
    reports is in some rule; when one is in none, the exception is the one
    of the missing rule, whatever the ranges are: the loop over
    [tokens[i]] never meets a missing entry. *)
Theorem highlight_returns_iff
    (code fallbackColor : string) (style : HighlightStyle) (ranges : list Range) :
  (returns (highlight code fallbackColor style ranges) <->
     Forall (fun r => is_Some (findRule style r.2)) ranges) /\
  (~ returns (highlight code fallbackColor style ranges) <->
     highlight code fallbackColor style ranges = Throw UndefinedRule).
Proof.
  assert (Hiff : returns (highlight code fallbackColor style ranges) <->
                 Forall (fun r => is_Some (findRule style r.2)) ranges).
  { unfold highlight. split.
    - intros [spans Hrun]. apply bind_returns in Hrun as (w & Hwalk & _).
      destruct (decide (Forall (fun r => is_Some (findRule style r.2)) ranges))
        as [Hall | Hnot]; [done |].
      apply not_Forall_Exists in Hnot; [| apply _].
      rewrite (walk_raises code fallbackColor style ranges start) in Hwalk; [done |].
      eapply Exists_impl; [exact Hnot |]. intros r Hr. simpl in Hr.
      destruct (findRule style r.2); [| done]. destruct Hr. by eexists.
    - intros Hall.
      destruct (walk_returns code fallbackColor style ranges start Hall) as [w ->].
      rewrite bind_Ok. by eexists. }
  split; [exact Hiff |]. split.
  - intros Hnot.
    destruct (highlight code fallbackColor style ranges) as [spans|e] eqn:Hrun.
    + destruct Hnot. by eexists.
    + f_equal. by eapply highlight_throws.
  - intros Hthrow [spans Hrun]. congruence.
Qed.

(** ** Joining, further *)

Lemma alternating_snoc (l : list Token) (e t : Token) :
  alternating (l ++ [e]) -> color e <> color t -> alternating ((l ++ [e]) ++ [t]).
Proof.
  intros Hal Hne i a b Ha Hb.
  destruct (decide (S i < length (l ++ [e]))) as [Hlt | Hge].
  - rewrite lookup_app_l in Ha, Hb by lia. by eapply Hal.
  - assert (Hi : i = length l).
    { apply lookup_lt_Some in Hb. rewrite !length_app in *. simpl in *. lia. }
    subst i.
    rewrite lookup_app_l in Ha by (rewrite length_app; simpl; lia).
    rewrite lookup_app_r, Nat.sub_diag in Ha by lia.
    rewrite lookup_app_r in Hb by (rewrite length_app; simpl; lia).
    rewrite length_app in Hb. simpl in Hb.
    replace (S (length l) - (length l + 1)) with 0 in Hb by lia.
    simpl in *. congruence.
Qed.

Lemma alternating_last (l : list Token) (e e' : Token) :
  alternating (l ++ [e]) -> color e' = color e -> alternating (l ++ [e']).
Proof.
  intros Hal Heq i a b Ha Hb.
  assert (Hi : S i < length l + 1).
  { apply lookup_lt_Some in Hb. rewrite length_app in Hb. simpl in Hb. lia. }
  rewrite lookup_app_l in Ha by lia.
  destruct (decide (S i < length l)) as [Hlt | Hge].
  - rewrite lookup_app_l in Hb by lia.
    apply (Hal i a b); rewrite lookup_app_l by lia; done.
  - assert (S i = length l) as Hlast by lia.
    rewrite lookup_app_r, Hlast, Nat.sub_diag in Hb by lia.
    injection Hb as <-. rewrite Heq.
    apply (Hal i a e).
    + rewrite lookup_app_l by lia. done.
    + rewrite lookup_app_r, Hlast, Nat.sub_diag by lia. done.
Qed.

Lemma join_step_alternating (acc : list Token) (t : Token) :
  alternating acc -> alternating (join_step acc t).
Proof.
  intros Hal. unfold join_step. destruct (last acc) as [e|] eqn:Hlast.
  - apply last_split in Hlast. destruct (decide (color e = color t)) as [Heq | Hne].
    + rewrite Hlast in Hal. by eapply alternating_last.
    + rewrite Hlast in *. by apply alternating_snoc.
  - intros [|i] a b Ha Hb; done.
Qed.

Lemma fold_join_keeps_alternating (ts acc : list Token) :
  alternating acc -> alternating (fold_left join_step ts acc).
Proof.
  revert acc. induction ts as [|t ts IH]; intros acc Hacc; simpl; [done |].
  apply IH. by apply join_step_alternating.
Qed.

(** X10.  In the stream that the fold of [highlight] builds, no two
    neighbouring tokens have the same colour. *)
Theorem joined_alternating (ts : list Token) : alternating (joined ts).
Proof.
  unfold joined. apply fold_join_keeps_alternating. intros i a b Ha. done.
Qed.

Lemma fold_join_alternating (ts acc : list Token) :
  alternating (acc ++ ts) -> fold_left join_step ts acc = acc ++ ts.
Proof.
  revert acc. induction ts as [|t ts IH]; intros acc Hal; simpl.
  - by rewrite app_nil_r.
  - assert (Hstep : join_step acc t = acc ++ [t]).
    { unfold join_step. destruct (last acc) as [e|] eqn:Hlast.
      - apply last_split in Hlast. destruct (decide (color e = color t)) as [Heq | Hne]; [| done].
        exfalso. apply (Hal (length (removelast acc)) e t); [| | done].
        + rewrite Hlast at 2. rewrite <- app_assoc, lookup_app_r, Nat.sub_diag by lia. done.
        + assert (Hlen : length acc = S (length (removelast acc))).
          { rewrite Hlast at 1. rewrite length_app. simpl. lia. }
          rewrite lookup_app_r by lia. rewrite Hlen, Nat.sub_diag. done.
      - by apply last_None in Hlast as ->. }
    rewrite Hstep, IH; rewrite <- app_assoc; done.
Qed.

(** X11.  Joining a stream that is already joined changes nothing. *)
Theorem joined_idempotent (ts : list Token) : joined (joined ts) = joined ts.
Proof.
  assert (Hal : alternating (joined ts)).
  { unfold joined. apply fold_join_keeps_alternating. intros i a b Ha. done. }
  unfold joined at 1. by rewrite fold_join_alternating.
Qed.

(** ** [tokens], further *)

Lemma concat_cons (x : string) (l : list string) :
  String.concat "" (x :: l) = x +:+ String.concat "" l.
Proof. destruct l; simpl; [by rewrite append_empty_r | done]. Qed.

Lemma concat_snoc (l : list string) (x : string) :
  String.concat "" (l ++ [x]) = String.concat "" l +:+ x.
Proof.
  induction l as [|y l IH]; [done |].
  change ((y :: l) ++ [x]) with (y :: (l ++ [x])).
  by rewrite !concat_cons, IH, append_assoc.
Qed.

Lemma regroup_step_concat (a a' : list string) (i : string) :
  regroup_step a i = Ok a' ->
  String.concat "" a' = String.concat "" a +:+ i /\
  length a' = length a + (if JS.has_ws i then 1 else 0) /\
  (a <> [] -> a' <> []).
Proof.
  unfold regroup_step. destruct (JS.has_ws i); simpl.
  - intros [= <-]. rewrite concat_snoc, length_app. simpl.
    split; [done |]. split; [lia |]. by destruct a.
  - destruct (last a) as [l|] eqn:Hlast; [| done].
    intros [= <-]. apply last_split in Hlast.
    split; [| split].
    + rewrite Hlast at 2. by rewrite !concat_snoc, append_assoc.
    + rewrite Hlast at 2. rewrite !length_app. simpl. lia.
    + intros _. by destruct (removelast a).
Qed.

Lemma reduce_regroup_concat (segments a chars : list string) :
  reduce regroup_step segments a = Ok chars ->
  String.concat "" chars = String.concat "" a +:+ String.concat "" segments /\
  length chars = length a + length (filter (fun s => JS.has_ws s = true) segments).
Proof.
  revert a. induction segments as [|i segments IH]; intros a Hrun; simpl in Hrun.
  - injection Hrun as <-. simpl. rewrite append_empty_r. split; [done | lia].
  - apply bind_returns in Hrun as (a1 & Hstep & Hrun).
    apply regroup_step_concat in Hstep as (Hcat & Hlen & _).
    destruct (IH a1 Hrun) as [Hcat' Hlen'].
    rewrite Hcat', Hcat, Hlen', Hlen, concat_cons, append_assoc, filter_cons.
    split; [done |]. destruct (JS.has_ws i); case_decide; simpl; try done; lia.
Qed.

Lemma text_of_chars (c : option string) (chars : list string) :
  text (map (fun char => {| token := char; color := c |}) chars) = String.concat "" chars.
Proof.
  induction chars as [|x chars IH]; [done |].
  rewrite concat_cons, <- IH. reflexivity.
Qed.

Lemma colors_of_clusters (c : option string) (chars : list string) :
  colors (map (fun char => {| token := char; color := c |}) chars)
  = replicate (String.length (String.concat "" chars)) c.
Proof.
  induction chars as [|x chars IH]; [done |].
  rewrite concat_cons, length_append, replicate_add, <- IH. reflexivity.
Qed.

(** X12.  With a segmenter that loses no text, [tokens] returns a stream
    with the text of the stream it was given and the same colour for every
    code unit. *)
Theorem tokens_keep_text_and_colors
    (segment : string -> list string) (highlighted : list Token) :
  lossless segment ->
  exists out,
    tokens segment highlighted = Ok out /\
    text out = text highlighted /\
    colors out = colors highlighted.
Proof.
  intros Hseg. unfold tokens.
  assert (Hparts : exists parts,
            mapM (split_token segment) highlighted = Ok parts /\
            text (concat parts) = text highlighted /\
            colors (concat parts) = colors highlighted).
  { induction highlighted as [|t ts (parts & Hrun & Htext & Hcol)].
    - by exists [].
    - cbn [mapM]. rewrite Hrun. unfold split_token.
      destruct (regroup_returns (segment (token t))) as [chars Hchars].
      rewrite Hchars, !bind_Ok. eexists. split; [reflexivity |].
      apply reduce_regroup_concat in Hchars as [Hcat _].
      rewrite append_nil_l, Hseg in Hcat.
      cbn [concat]. rewrite text_app, colors_app, Htext, Hcol.
      rewrite text_of_chars, colors_of_clusters, Hcat.
      split; [done |]. by rewrite <- colors_singleton, <- colors_app. }
  destruct Hparts as (parts & -> & Htext & Hcol).
  rewrite bind_Ok. by eexists.
Qed.

Lemma tokens_keep_text_and_colors_witness :
  exists out,
    tokens whole [ {| token := "ab cd"; color := Some "red" |};
                   {| token := "e"; color := None |} ] = Ok out /\
    text out = text [ {| token := "ab cd"; color := Some "red" |};
                      {| token := "e"; color := None |} ] /\
    colors out = colors [ {| token := "ab cd"; color := Some "red" |};
                          {| token := "e"; color := None |} ].
Proof.
  apply (tokens_keep_text_and_colors whole). intros s. reflexivity.
Defined.

(** X13.  The re-grouping of the segments of one token never raises; it
    gives one cluster and one more for each segment that holds whitespace,
    and the clusters concatenate to what the segments concatenate to. *)
Theorem regroup_clusters (segments : list string) :
  exists chars,
    regroup segments = Ok chars /\
    length chars = S (length (filter (fun s => JS.has_ws s = true) segments)) /\
    String.concat "" chars = String.concat "" segments.
Proof.
  destruct (regroup_returns segments) as [chars Hrun].
  exists chars. split; [done |].
  apply reduce_regroup_concat in Hrun as [Hcat Hlen]. by split.
Qed.

Lemma regroup_step_head (h x i : string) (l : list string) :
  exists x' l', regroup_step (h :: x :: l) i = Ok (h :: x' :: l').
Proof.
  unfold regroup_step. destruct (JS.has_ws i); cbn [negb].
  - by exists x, (l ++ [i]).
  - destruct (last (x :: l)) as [e|] eqn:Hlast.
    + assert (Hlast' : last (h :: x :: l) = Some e) by done.
      rewrite Hlast'.
      change (removelast (h :: x :: l)) with (h :: removelast (x :: l)).
      destruct (removelast (x :: l)) as [|y front]; by eexists _, _.
    + by apply last_None in Hlast.
Qed.

Lemma reduce_regroup_head (segments : list string) (h x : string) (l : list string) :
  exists x' l', reduce regroup_step segments (h :: x :: l) = Ok (h :: x' :: l').
Proof.
  revert x l. induction segments as [|i segments IH]; intros x l; simpl.
  - by exists x, l.
  - destruct (regroup_step_head h x i l) as (x1 & l1 & ->).
    rewrite bind_Ok. apply IH.
Qed.

(** X14.  When the first segment of a token holds whitespace, the first
    token of the result has the empty text: the reduction starts from one
    empty string and nothing is ever appended to it. *)
Theorem tokens_start_empty
    (segment : string -> list string) (t : Token) (highlighted : list Token)
    (s : string) (segments : list string) :
  segment (token t) = s :: segments ->
  JS.has_ws s = true ->
  exists rest,
    tokens segment (t :: highlighted) = Ok ({| token := ""; color := color t |} :: rest).
Proof.
  intros Hseg Hws. unfold tokens. cbn [mapM].
  destruct (tokens_returns segment highlighted) as [out Hout].
  unfold tokens in Hout. apply bind_returns in Hout as (parts & -> & _).
  unfold split_token at 1. rewrite Hseg. unfold regroup. cbn [reduce].
  unfold regroup_step at 2. rewrite Hws. simpl negb. cbv iota. rewrite bind_Ok.
  destruct (reduce_regroup_head segments "" s []) as (x' & l' & Hrun).
  simpl app. rewrite Hrun, !bind_Ok. by eexists.
Qed.

Lemma tokens_start_empty_witness :
  exists rest,
    tokens whole ({| token := " ab"; color := Some "red" |} :: [])
      = Ok ({| token := ""; color := color {| token := " ab"; color := Some "red" |} |} :: rest).
Proof.
  apply (tokens_start_empty whole {| token := " ab"; color := Some "red" |} [] " ab" []);
    reflexivity.
Defined.

(** ** [highlighted], further *)

Section BlendLengths.

Variable Color : Type.
Variable newColor : option string -> option Color.
Variable mix : Color -> Color -> Q -> Color.
Variable hex : Color -> string.

(** X15.  When the old stream has at least as many tokens as the new one
    and the colour class reads the colours of the new stream and of the old
    tokens that face them, blending returns for every progress: the result
    has the texts of the new stream, token by token, and each colour is the
    mix of the two colours at that place.  The texts of the old stream are
    never read. *)
Theorem highlighted_keeps_new_texts (p : Q) (new old : list Token) (cn co : list Color) :
  length new <= length old ->
  reads newColor new cn ->
  reads newColor (take (length new) old) co ->
  exists out,
    highlighted Color newColor mix hex (Some p) (Ok new) (Ok (Some old)) = Ok out /\
    map token out = map token new /\
    map color out = zip_with (fun a b => Some (hex (mix a b (1 - p)))) cn co.
Proof.
  intros Hlen Hnew Hold.
  rewrite (blend_streams_reads Color newColor mix hex p new old cn co) by done.
  eexists. split; [reflexivity |].
  assert (Hcn : length new = length cn) by by eapply Forall2_length.
  assert (Hco : length new = length co).
  { apply Forall2_length in Hold. rewrite length_take in Hold. lia. }
  clear Hnew Hold Hlen. revert cn co Hcn Hco.
  induction new as [|n new IH]; intros [|a cn] [|b co] Hcn Hco; simpl in *; try done.
  destruct (IH cn co) as [Htok Hcol]; [lia | lia |].
  by rewrite Htok, Hcol.
Qed.

Lemma blend_streams_raise (p : Q) (new old : list Token) :
  length old < length new ->
  exists e,
    highlighted Color newColor mix hex (Some p) (Ok new) (Ok (Some old)) = Throw e /\
    (e = UndefinedOldToken \/ e = UnknownFormat).
Proof.
  revert old. induction new as [|n new IH]; intros old Hlen; simpl in Hlen; [lia |].
  destruct old as [|o old].
  - rewrite blend_streams_short. eauto.
  - rewrite blend_streams_cons.
    destruct (blend Color newColor mix hex p (n, Some o)) as [t|e] eqn:Hpair.
    + rewrite bind_Ok. destruct (IH old) as (e & -> & He); [simpl in Hlen; lia |].
      rewrite bind_Throw. eauto.
    + rewrite bind_Throw. exists e. split; [done |].
      right. by eapply blend_pair_throws.
Qed.

(** X16.  When the old stream has fewer tokens than the new one, the body
    of [highlighted] raises for every progress and returns no stream: the
    exception is the one of the undefined old token, or that of the colour
    class if it cannot read a colour that comes before. *)
Theorem highlighted_raises_on_shorter_old (p : Q) (new old : list Token) :
  length old < length new ->
  exists e,
    highlighted Color newColor mix hex (Some p) (Ok new) (Ok (Some old)) = Throw e /\
    (e = UndefinedOldToken \/ e = UnknownFormat).
Proof. apply blend_streams_raise. Qed.

End BlendLengths.

Lemma highlighted_keeps_new_texts_witness :
  exists out,
    highlighted string sample_newColor sample_mix sample_hex (Some (1 # 2)%Q)
      (Ok [ {| token := "ab"; color := Some "red" |} ])
      (Ok (Some [ {| token := "a"; color := Some "blue" |};
                  {| token := "b"; color := None |} ])) = Ok out /\
    map token out = map token [ {| token := "ab"; color := Some "red" |} ] /\
    map color out
      = zip_with (fun a b => Some (sample_hex (sample_mix a b (1 - (1 # 2))%Q)))
                 ["red"] ["blue"].
Proof.
  apply (highlighted_keeps_new_texts string sample_newColor sample_mix sample_hex (1 # 2)%Q).
  - simpl. lia.
  - repeat constructor.
  - repeat constructor.
Defined.

Lemma highlighted_raises_on_shorter_old_witness :
  exists e,
    highlighted string sample_newColor sample_mix sample_hex (Some (1 # 2)%Q)
      (Ok [ {| token := "a"; color := Some "blue" |};
            {| token := "b"; color := Some "green" |} ])
      (Ok (Some [ {| token := "ab"; color := Some "red" |} ])) = Throw e /\
    (e = UndefinedOldToken \/ e = UnknownFormat).
Proof.
  apply (highlighted_raises_on_shorter_old string sample_newColor sample_mix sample_hex
           (1 # 2)%Q).
  simpl. lia.
Defined.

Example highlighted_unread_before_short :
  highlighted string sample_newColor sample_mix sample_hex (Some (1 # 2)%Q)
    (Ok [ {| token := "a"; color := None |};
          {| token := "b"; color := Some "green" |} ])
    (Ok (Some [ {| token := "ab"; color := Some "red" |} ]))
  = Throw UnknownFormat.
Proof. reflexivity. Qed.

(** ** [tweenStyle], further *)




Section RunStreams.

Variable Tree : Type.
Variable parse : string -> Tree.
Variable highlightTree : Tree -> HighlightStyle -> list Range.
Variable Color : Type.
Variable newColor : option string -> option Color.
Variable mix : Color -> Color -> Q -> Color.
Variable hex : Color -> string.

Local Abbreviation stream := (Node.highlighted Tree parse highlightTree Color newColor mix hex).
Local Abbreviation plain := (Node.highlight Tree parse highlightTree).



End RunStreams.

(** ** [desiredSize] and [draw] *)

Section LayoutFacts.

Variable Num : Type.
Variable zero : Num.
Variable add : Num -> Num -> Num.
Variable max : Num -> Num -> Num.
Variable neg_half : Num -> Num.
Variable measureText : string -> Num.
Variable lh : Num.

Local Abbreviation measure := (measure_step Num zero add max measureText lh).
Local Abbreviation size_of := (desiredSize Num zero add max measureText lh).
Local Abbreviation draw_token := (draw_step Num zero add measureText lh).
Local Abbreviation loop := (draw_loop Num zero add neg_half measureText lh).
Local Abbreviation drawn := (draw Num zero add neg_half measureText lh).

Lemma line_feeds_cons (t : Token) (ts : list Token) :
  line_feeds (t :: ts) = (if decide (token t = JS.nl) then 1 else 0) + line_feeds ts.
Proof. unfold line_feeds. rewrite filter_cons. by case_decide. Qed.

Lemma line_feeds_none (ts : list Token) :
  Forall (fun t => token t <> JS.nl) ts -> line_feeds ts = 0.
Proof.
  induction 1 as [|t ts Ht _ IH]; [done |].
  rewrite line_feeds_cons, IH. by case_decide.
Qed.

Lemma measure_rest (rest : list Token) (m : Measure Num) :
  Forall (fun t => token t <> JS.nl) rest ->
  height Num (fold_left measure rest m) = height Num m /\
  width Num (fold_left measure rest m) = width Num m.
Proof.
  intros Hrest. revert m. induction Hrest as [|t rest Ht _ IH]; intros m; [done |].
  cbn [fold_left]. rewrite !(proj1 (IH _)), !(proj2 (IH _)).
  unfold measure_step. by case_decide.
Qed.

Lemma measure_height (ts : list Token) (m : Measure Num) :
  height Num (fold_left measure ts m)
  = Nat.iter (line_feeds ts) (fun h => add h lh) (height Num m).
Proof.
  revert m. induction ts as [|t ts IH]; intros m; [done |].
  cbn [fold_left]. rewrite IH, line_feeds_cons.
  unfold measure_step. case_decide; [| done].
  symmetry. apply (Nat.iter_succ_r (line_feeds ts) (fun h => add h lh)).
Qed.

(** X20.  The tokens after the last token that is a line feed do not count
    in the size: a text on one line, and the last line of any text, adds
    nothing to the width, and with no line feed token the size is of width
    [0] and one line high. *)
Theorem desiredSize_ignores_last_line (ts rest : list Token) :
  Forall (fun t => token t <> JS.nl) rest ->
  size_of (ts ++ rest) = size_of ts /\
  size_of rest = {| x := zero; y := lh |}.
Proof.
  intros Hrest. unfold desiredSize. rewrite fold_left_app.
  by rewrite !(proj1 (measure_rest rest _ Hrest)), !(proj2 (measure_rest rest _ Hrest)).
Qed.

(** X21.  The height is the line height with one more line height added
    for each token that is exactly a line feed. *)
Theorem desiredSize_height (ts : list Token) :
  y Num (size_of ts) = Nat.iter (line_feeds ts) (fun h => add h lh) lh.
Proof. unfold desiredSize. simpl. by rewrite measure_height. Qed.

End LayoutFacts.

Lemma desiredSize_ignores_last_line_witness :
  desiredSize nat 0 Nat.add Nat.max fixed_width 20
    ([ {| token := "ab"; color := None |}; line_feed None ]
       ++ [ {| token := "a much longer line"; color := None |} ])
  = desiredSize nat 0 Nat.add Nat.max fixed_width 20
      [ {| token := "ab"; color := None |}; line_feed None ] /\
  desiredSize nat 0 Nat.add Nat.max fixed_width 20
    [ {| token := "a much longer line"; color := None |} ] = {| x := 0; y := 20 |}.
Proof.
  apply (desiredSize_ignores_last_line nat 0 Nat.add Nat.max fixed_width 20).
  repeat constructor. simpl. discriminate.
Defined.

Section DrawFacts.

Variable Num : Type.
Variable zero : Num.
Variable add : Num -> Num -> Num.
Variable neg_half : Num -> Num.
Variable measureText : string -> Num.
Variable lh : Num.

Local Abbreviation draw_token := (draw_step Num zero add measureText lh).
Local Abbreviation loop := (draw_loop Num zero add neg_half measureText lh).
Local Abbreviation drawn := (draw Num zero add neg_half measureText lh).

Lemma fill_texts_app (a b : list (CanvasCall Num)) :
  fill_texts Num (a ++ b) = fill_texts Num a ++ fill_texts Num b.
Proof. apply flat_map_app. Qed.

Lemma fill_styles_app (a b : list (CanvasCall Num)) :
  fill_styles Num (a ++ b) = fill_styles Num a ++ fill_styles Num b.
Proof. apply flat_map_app. Qed.

Lemma saves_app (a b : list (CanvasCall Num)) :
  saves Num (a ++ b) = saves Num a + saves Num b.
Proof. unfold saves. by rewrite flat_map_app, length_app. Qed.

Lemma restores_app (a b : list (CanvasCall Num)) :
  restores Num (a ++ b) = restores Num a + restores Num b.
Proof. unfold restores. by rewrite flat_map_app, length_app. Qed.

(** What the loop adds to the calls made so far, and where it leaves the
    position. *)
Lemma draw_fold (ts : list Token) (calls : list (CanvasCall Num)) (pos : Size Num) :
  exists more,
    (fold_left draw_token ts (calls, pos)).1 = calls ++ more /\
    fill_texts Num more = map token (filter (fun t => token t <> JS.nl) ts) /\
    fill_styles Num more = map (fun t => default "#c9d1d9" (color t)) ts /\
    saves Num more = length ts /\
    restores Num more = length ts.
Proof.
  revert calls pos. induction ts as [|t ts IH]; intros calls pos.
  - exists []. by rewrite app_nil_r.
  - cbn [fold_left]. unfold draw_step at 2, drawToken.
    rewrite filter_cons. case_decide as Hnl.
    + destruct (IH (calls ++ [CtxSave; CtxFillStyle (default "#c9d1d9" (color t))]
                      ++ [] ++ [CtxRestore])
                   {| x := zero; y := add (y Num pos) lh |})
        as (more & -> & Htexts & Hstyles & Hsaves & Hrestores).
      eexists. rewrite <- app_assoc. split; [reflexivity |].
      rewrite fill_texts_app, fill_styles_app, saves_app, restores_app.
      rewrite Htexts, Hstyles, Hsaves, Hrestores.
      case_decide; [done |]. repeat split.
    + destruct (IH (calls ++ [CtxSave; CtxFillStyle (default "#c9d1d9" (color t))]
                      ++ [CtxFillText (token t) (x Num pos) (y Num pos)] ++ [CtxRestore])
                   {| x := add (x Num pos) (measureText (token t)); y := y Num pos |})
        as (more & -> & Htexts & Hstyles & Hsaves & Hrestores).
      eexists. rewrite <- app_assoc. split; [reflexivity |].
      rewrite fill_texts_app, fill_styles_app, saves_app, restores_app.
      rewrite Htexts, Hstyles, Hsaves, Hrestores.
      case_decide; [| done]. repeat split.
Qed.

(** X22.  [draw] fills the text of every token that is not exactly a line
    feed, in order, and only those; it sets one fill style for each token,
    the colour of the token, and [#c9d1d9] when the colour is undefined (an
    empty colour string is passed on as it is); and it makes one [save]
    and one [restore] for each token. *)
Theorem draw_calls (size : Size Num) (ts : list Token) :
  fill_texts Num (drawn size ts) = map token (filter (fun t => token t <> JS.nl) ts) /\
  fill_styles Num (drawn size ts) = map (fun t => default "#c9d1d9" (color t)) ts /\
  saves Num (drawn size ts) = length ts /\
  restores Num (drawn size ts) = length ts.
Proof.
  unfold draw, draw_loop.
  destruct (draw_fold ts [CtxTranslate (neg_half (x Num size)) (neg_half (y Num size))]
              {| x := zero; y := zero |})
    as (more & -> & Htexts & Hstyles & Hsaves & Hrestores).
  rewrite fill_texts_app, fill_styles_app, saves_app, restores_app.
  by rewrite Htexts, Hstyles, Hsaves, Hrestores.
Qed.

(** Where the position is after the tokens. *)
Lemma pen_y (ts : list Token) (calls : list (CanvasCall Num)) (pos : Size Num) :
  y Num (fold_left draw_token ts (calls, pos)).2
  = Nat.iter (line_feeds ts) (fun v => add v lh) (y Num pos).
Proof.
  revert calls pos. induction ts as [|t ts IH]; intros calls pos; [done |].
  cbn [fold_left]. unfold draw_step at 2, drawToken.
  rewrite line_feeds_cons. case_decide; rewrite IH; [| done].
  symmetry. apply (Nat.iter_succ_r (line_feeds ts) (fun v => add v lh)).
Qed.

Lemma pen_x_after_line_feed (ts : list Token) (c : option string)
    (calls : list (CanvasCall Num)) (pos : Size Num) :
  x Num (fold_left draw_token (ts ++ [line_feed c]) (calls, pos)).2 = zero.
Proof.
  rewrite fold_left_app. cbn [fold_left].
  destruct (fold_left draw_token ts (calls, pos)) as [calls' pos'].
  unfold draw_step, drawToken, line_feed. cbn [token].
  destruct (decide (JS.nl = JS.nl)) as [_ | Hne]; [done | by destruct Hne].
Qed.

(** X23.  A token that is not a line feed is filled one line height lower
    for each line feed token before it, from [0]; when it is the first
    token, or comes right after a line feed token, it is filled at
    [x = 0]. *)
Theorem draw_position (size : Size Num) (pre post : list Token) (t : Token) :
  token t <> JS.nl ->
  exists before after px,
    drawn size (pre ++ t :: post)
      = before ++ CtxFillText (token t) px
                    (Nat.iter (line_feeds pre) (fun v => add v lh) zero) :: after /\
    fill_texts Num before = map token (filter (fun u => token u <> JS.nl) pre) /\
    (pre = [] -> px = zero) /\
    (forall pre' c, pre = pre' ++ [line_feed c] -> px = zero).
Proof.
  intros Hnl. unfold draw, draw_loop. rewrite fold_left_app. cbn [fold_left].
  set (init := ([CtxTranslate (neg_half (x Num size)) (neg_half (y Num size))],
                {| x := zero; y := zero |})).
  pose proof (pen_y pre init.1 init.2) as Hy.
  destruct (draw_fold pre init.1 init.2) as (more & Hcalls & Htexts & _).
  assert (Hx : forall pre' c, pre = pre' ++ [line_feed c] ->
                 x Num (fold_left draw_token pre init).2 = zero).
  { intros pre' c ->. apply (pen_x_after_line_feed pre' c init.1 init.2). }
  change (init.1, init.2) with init in *.
  destruct (fold_left draw_token pre init) as [calls pos] eqn:Hpre.
  simpl in Hcalls, Hy, Hx.
  unfold draw_step at 2, drawToken. case_decide; [done |].
  match goal with
  | |- context [fold_left _ post (?c, ?p)] =>
      destruct (draw_fold post c p) as (rest & Hrest & _)
  end.
  exists (calls ++ [CtxSave; CtxFillStyle (default "#c9d1d9" (color t))]),
         (CtxRestore :: rest), (x Num pos).
  split; [| split; [| split]].
  - rewrite Hrest, Hy, <- !app_assoc. reflexivity.
  - rewrite fill_texts_app, Hcalls.
    change (fill_texts Num (CtxTranslate _ _ :: more)) with (fill_texts Num more).
    rewrite Htexts. simpl. by rewrite app_nil_r.
  - intros ->. simpl in Hpre. by injection Hpre as _ <-.
  - exact Hx.
Qed.

End DrawFacts.

Lemma draw_position_witness :
  exists before after px,
    draw nat 0 Nat.add (fun n => n / 2) fixed_width 20 {| x := 0; y := 20 |}
      ([ {| token := "ab"; color := Some "red" |}; line_feed None ]
         ++ {| token := "cd"; color := None |} :: [])
      = before ++ CtxFillText "cd" px
                    (Nat.iter (line_feeds [ {| token := "ab"; color := Some "red" |};
                                            line_feed None ])
                              (fun v => v + 20) 0) :: after /\
    fill_texts nat before
      = map token (filter (fun u => token u <> JS.nl)
                          [ {| token := "ab"; color := Some "red" |}; line_feed None ]) /\
    ([ {| token := "ab"; color := Some "red" |}; line_feed None ] = [] -> px = 0) /\
    (forall pre' c,
       [ {| token := "ab"; color := Some "red" |}; line_feed None ] = pre' ++ [line_feed c] ->
       px = 0).
Proof.
  apply (draw_position nat 0 Nat.add (fun n => n / 2) fixed_width 20).
  simpl. discriminate.
Defined.

Example draw_example :
  draw nat 0 Nat.add (fun n => n / 2) fixed_width 20 {| x := 0; y := 20 |}
    [ {| token := "ab"; color := Some "red" |}; line_feed None;
      {| token := "cd"; color := None |} ]
  = [ CtxTranslate 0 10;
      CtxSave; CtxFillStyle "red"; CtxFillText "ab" 0 0; CtxRestore;
      CtxSave; CtxFillStyle "#c9d1d9"; CtxRestore;
      CtxSave; CtxFillStyle "#c9d1d9"; CtxFillText "cd" 0 20; CtxRestore ].
Proof. reflexivity. Qed.

(** ** Rules *)

Lemma split_from_rest_includes (sep s cur : string) :
  sep <> "" ->
  (JS.split_from sep s cur 0).2 = [] <-> JS.includes s sep = false.
Proof.
  intros Hsep. revert cur. induction s as [|c s IH]; intros cur.
  - simpl. destruct sep; [done |]. simpl. done.
  - cbn [JS.split_from JS.includes].
    destruct (String.prefix sep (String c s)).
    + simpl. destruct (JS.split_from sep s "" _). split; discriminate.
    + rewrite IH. done.
Qed.

(** X24.  A rule gives no colour exactly when its text does not contain
    [color:]; a rule that only sets [background-color:] gives a colour. *)
Theorem ruleColor_none_iff (rule : string) :
  ruleColor rule = None <-> JS.includes rule "color:" = false.
Proof.
  unfold ruleColor, JS.split.
  rewrite <- (split_from_rest_includes "color:" rule "") by done.
  destruct (JS.split_from "color:" rule "" 0).2 as [|value rest]; simpl; split; done.
Qed.

Example ruleColor_background :
  ruleColor ".k {background-color: #222;}" = Some "#222".
Proof. reflexivity. Qed.

(** The rule is found by substring: an earlier line that contains the
    class list wins over the line of the class itself. *)
Example findRule_shadowed :
  findRule {| getRules := ".k10 {color: red;}" +:+ JS.nl +:+ ".k1 {color: blue;}" |} "k1"
  = Some ".k10 {color: red;}".
Proof. reflexivity. Qed.
